(** * blwipe: cryptographic erasure of BitLocker volumes

    A shallow embedding of [blwipe.go] and the properties of its
    metadata-block decoder, header validation, erase planner and wipe
    executor.

    Conventions.  Fixed-width Go integers are values of [Z]; every
    conversion and every arithmetic operation of the source is written
    with its wrap-around ([wrap64], [int64_of_uint64]).  Bytes are
    [Byte.byte], byte arrays and slices are [list byte].  The device is a
    byte list with a file position; the entropy source and the outcome of
    each write are oracles of the environment. *)

From Stdlib Require Import String Ascii.
From Stdlib Require Import Strings.Byte.
From Stdlib Require Import ZArith List Bool Lia.
Import ListNotations.

Local Open Scope Z_scope.

(* ================================================================== *)
(** * Machine integers *)

Definition two63 : Z := 2 ^ 63.
Definition two64 : Z := 2 ^ 64.

(** Reinterpretation of a 64-bit pattern as a signed value: the
    conversion [int64(x)] of an [uint64]. *)
Definition int64_of_uint64 (z : Z) : Z :=
  if z <? two63 then z else z - two64.

(** Result of an [int64] operation whose mathematical value is [z]. *)
Definition wrap64 (z : Z) : Z := int64_of_uint64 (z mod two64).

Definition add64 (a b : Z) : Z := wrap64 (a + b).
Definition sub64 (a b : Z) : Z := wrap64 (a - b).
Definition mul64 (a b : Z) : Z := wrap64 (a * b).
(** [^x] on int64: bitwise complement. *)
Definition not64 (a : Z) : Z := wrap64 (Z.lnot a).
(** [x & y] on int64; two's complement [Z.land] agrees with the machine's. *)
Definition and64 (a b : Z) : Z := wrap64 (Z.land a b).

(* ================================================================== *)
(** * Bytes and little-endian decoding ([encoding/binary]) *)

Definition byte_to_Z (b : byte) : Z := Z.of_N (Byte.to_N b).

(** [binary.LittleEndian.UintNN]: least significant byte first. *)
Fixpoint le_uint (bs : list byte) : Z :=
  match bs with
  | [] => 0
  | b :: rest => byte_to_Z b + 256 * le_uint rest
  end.

(** [bs[off : off+len]] *)
Definition slice (bs : list byte) (off len : nat) : list byte :=
  firstn len (skipn off bs).

(** The decoder of [encoding/binary] walks its buffer with a cursor that
    advances by the width of each field. *)
Definition Cursor (A : Type) : Type := list byte -> A * list byte.

Definition cret {A} (a : A) : Cursor A := fun bs => (a, bs).
Definition cbind {A B} (c : Cursor A) (k : A -> Cursor B) : Cursor B :=
  fun bs => let (a, rest) := c bs in k a rest.

Declare Scope cursor_scope.
Delimit Scope cursor_scope with cursor.
Notation "x <- c ;; k" := (cbind c (fun x => k))
  (at level 61, c at next level, right associativity) : cursor_scope.
Notation "c ;;; k" := (cbind c (fun _ => k))
  (at level 61, right associativity) : cursor_scope.

Definition take_bytes (n : nat) : Cursor (list byte) :=
  fun bs => (firstn n bs, skipn n bs).
Definition uint (width : nat) : Cursor Z :=
  fun bs => (le_uint (firstn width bs), skipn width bs).
Definition uint16 := uint 2.
Definition uint32 := uint 4.
Definition uint64 := uint 8.
(** Blank ([_]) fields are skipped. *)
Definition skip (n : nat) : Cursor unit :=
  fun bs => (tt, skipn n bs).

(* ================================================================== *)
(** * hash/crc32

    [crc32.ChecksumIEEE] of the Go standard library: the reflected CRC-32
    of polynomial [0xedb88320] with initial value and final complement
    [0xffffffff]. *)

Definition IEEE : Z := 0xedb88320.

Definition crc_shift (c : Z) : Z :=
  if Z.testbit c 0 then Z.lxor (Z.shiftr c 1) IEEE else Z.shiftr c 1.

Definition crc_byte (c : Z) (b : byte) : Z :=
  Nat.iter 8 crc_shift (Z.lxor c (byte_to_Z b)).

Definition ChecksumIEEE (data : list byte) : Z :=
  Z.lxor (fold_left crc_byte data 0xffffffff) 0xffffffff.

(* ================================================================== *)
(** * Readers: [io.ReadSeeker] over a byte sequence

    Both [*os.File] and [*bytes.Reader] are a byte sequence with a
    position. *)

Record Reader : Type := mkReader {
  rdata : list byte;
  rpos : Z
}.

Inductive IOError : Type :=
| EOF
| ErrUnexpectedEOF.

(** [io.ReadFull(r, buf)] with [len(buf) = n]: [EOF] when no byte could
    be read, [ErrUnexpectedEOF] when some but not all; the position
    advances by what was read. *)
Definition ReadFull (r : Reader) (n : nat) : Reader * (IOError + list byte) :=
  let avail := if Z.of_nat (length (rdata r)) <=? rpos r then []
               else skipn (Z.to_nat (rpos r)) (rdata r) in
  if Nat.eqb n 0 then (r, inr [])
  else if Nat.eqb (length avail) 0 then (r, inl EOF)
  else if Nat.ltb (length avail) n then
    (mkReader (rdata r) (rpos r + Z.of_nat (length avail)), inl ErrUnexpectedEOF)
  else
    (mkReader (rdata r) (rpos r + Z.of_nat n), inr (firstn n avail)).

(** [binary.Read(r, binary.LittleEndian, &v)] for a fixed-size [v] of
    [n = binary.Size(v)] bytes: the bytes are read in full first, and
    only then decoded. *)
Definition binary_Read {A} (r : Reader) (n : nat) (dec : Cursor A)
  : Reader * (IOError + A) :=
  match ReadFull r n with
  | (r', inl e) => (r', inl e)
  | (r', inr bs) => (r', inr (fst (dec bs)))
  end.

Inductive Whence : Type := SeekStart | SeekCurrent.

(** [r.Seek(off, whence)] on an [io.ReadSeeker], as [InfoStruct.Read]
    calls it: a resulting position that is negative or not an int64 is
    refused and the position stays where it was.  [Read] only steps
    back over the header it has just read, to a position within the
    source; the seeks of [main] on the file are [File_Seek] below.  The
    source never looks at the result. *)
Definition Seek (r : Reader) (off : Z) (whence : Whence) : Reader :=
  let target := match whence with
                | SeekStart => off
                | SeekCurrent => rpos r + off
                end in
  if (0 <=? target) && (target <? two63)
  then mkReader (rdata r) target
  else r.

(* ================================================================== *)
(** * On-disk structures *)

Record Guid : Type := mkGuid {
  guid_A : Z;               (* uint32 *)
  guid_B : Z;               (* uint16 *)
  guid_C : Z;               (* uint16 *)
  guid_D : list byte;       (* [2]byte *)
  guid_E : list byte        (* [6]byte *)
}.

Record RegionDesc : Type := mkRegion {
  Name : string;
  Offset : Z;               (* int64 *)
  Size : Z                  (* int64 *)
}.

Record VolumeHeader : Type := mkVolumeHeader {
  vh_Jmp : list byte;             (* [3]byte *)
  vh_Signature : list byte;       (* [8]byte *)
  vh_SectorSize : Z;              (* uint16 *)
  vh_SectorsPerCluster : Z;       (* uint8 *)
  vh_ReservedClusters : Z;        (* uint16 *)
  vh_NumSectors : Z;              (* uint64 *)
  vh_MftStartCluster : Z;         (* uint64 *)
  vh_MetadataLcn : Z;             (* uint64 *)
  vh_Guid : Guid;
  vh_InfoOffsets : list Z;        (* [3]uint64 *)
  vh_EOWOffsets : list Z          (* [2]uint64 *)
}.

Record ValidationHeader : Type := mkValidation {
  val_Size : Z;                   (* uint16 *)
  val_Version : Z;                (* uint16 *)
  val_Crc32 : Z                   (* uint32 *)
}.

Record InfoStructHeader : Type := mkInfoHeader {
  ih_Signature : list byte;       (* [8]byte *)
  ih_Size : Z;                    (* uint16 *)
  ih_Version : Z                  (* uint16 *)
}.

Record InfoStruct : Type := mkInfoStruct {
  is_Header : InfoStructHeader;
  is_VolumeSize : Z;              (* uint64 *)
  is_ConvertSize : Z;             (* uint32 *)
  is_HeaderSectors : Z;           (* uint32 *)
  is_InfoOffsets : list Z;        (* [3]uint64 *)
  is_HeaderSectorsOffset : Z      (* uint64 *)
}.

(** [binary.Size] of the structures. *)
Definition size_Guid : nat := 4 + 2 + 2 + 2 + 6.
Definition size_InfoStructHeader : nat := 8 + 2 + 2.
Definition size_ValidationHeader : nat := 2 + 2 + 4.
Definition size_InfoStruct : nat :=
  size_InfoStructHeader + (2 + 2) + 8 + 4 + 4 + 3 * 8 + 8.
Definition size_VolumeHeader : nat :=
  3 + 8 + 2 + 1 + 2 + (1 + 2 + 2 + 1 + 2 + 2 + 2 + 4 + 4) + 4
  + 8 + 8 + 8 + 96 + size_Guid + 3 * 8 + 2 * 8.

Local Open Scope cursor_scope.

Definition dec_Guid : Cursor Guid :=
  a <- uint32 ;; b <- uint16 ;; c <- uint16 ;;
  d <- take_bytes 2 ;; e <- take_bytes 6 ;;
  cret (mkGuid a b c d e).

Definition dec_ValidationHeader : Cursor ValidationHeader :=
  sz <- uint16 ;; ver <- uint16 ;; crc <- uint32 ;;
  cret (mkValidation sz ver crc).

Definition dec_InfoStructHeader : Cursor InfoStructHeader :=
  sig <- take_bytes 8 ;; sz <- uint16 ;; ver <- uint16 ;;
  cret (mkInfoHeader sig sz ver).

Definition dec_InfoStruct : Cursor InfoStruct :=
  h <- dec_InfoStructHeader ;;
  skip (2 + 2) ;;;
  vs <- uint64 ;;
  cs <- uint32 ;;
  hs <- uint32 ;;
  o0 <- uint64 ;; o1 <- uint64 ;; o2 <- uint64 ;;
  hso <- uint64 ;;
  cret (mkInfoStruct h vs cs hs [o0; o1; o2] hso).

Definition dec_VolumeHeader : Cursor VolumeHeader :=
  jmp <- take_bytes 3 ;;
  sig <- take_bytes 8 ;;
  ss <- uint16 ;;
  spc <- uint 1 ;;
  rc <- uint16 ;;
  skip (1 + 2 + 2 + 1 + 2 + 2 + 2 + 4 + 4) ;;;
  skip 4 ;;;
  ns <- uint64 ;;
  mft <- uint64 ;;
  lcn <- uint64 ;;
  skip 96 ;;;
  g <- dec_Guid ;;
  o0 <- uint64 ;; o1 <- uint64 ;; o2 <- uint64 ;;
  e0 <- uint64 ;; e1 <- uint64 ;;
  cret (mkVolumeHeader jmp sig ss spc rc ns mft lcn g [o0; o1; o2] [e0; e1]).

Local Close Scope cursor_scope.

(* ================================================================== *)
(** * Signature check *)

(** [string(b[:]) == "-FVE-FS-"] *)
Definition VerifySignature (b : list byte) : bool :=
  String.eqb (string_of_list_byte b) "-FVE-FS-".

(* ================================================================== *)
(** * InfoStruct.Read *)

Inductive Error : Type :=
| ErrIO (e : IOError)                          (* returned as it is *)
| ErrInvalidSignature (sig : list byte)        (* "invalid signature %q" *)
| ErrUnknownVersion                            (* "unknown version %x", no argument *)
| ErrSizeTooSmall                              (* "size too small" *)
| ErrValidationHeader (e : IOError)            (* "cannot read validation header: %+v" *)
| ErrChecksumMismatch (stored computed : Z).   (* "validation checksum mismatch: ..." *)

(** What a call [s.Read(r)] leaves behind: the two named results, the
    receiver and the reader. *)
Record ReadResult : Type := mkReadResult {
  res_size : Z;
  res_err : option Error;
  res_info : InfoStruct;
  res_reader : Reader
}.

(** The [switch hdr.Version] on [size = int64(hdr.Size)]: the payload
    size, or nothing for a version that is not known. *)
Definition version_size (hdr : InfoStructHeader) : option Z :=
  let size := ih_Size hdr in
  if ih_Version hdr =? 1 then Some size
  else if ih_Version hdr =? 2 then Some (mul64 size 16)
  else None.

Definition InfoStruct_Read (s : InfoStruct) (r : Reader) : ReadResult :=
  let size := -1 in
  match binary_Read r size_InfoStructHeader dec_InfoStructHeader with
  | (r1, inl e) => mkReadResult size (Some (ErrIO e)) s r1
  | (r1, inr hdr) =>
    if negb (VerifySignature (ih_Signature hdr)) then
      mkReadResult size (Some (ErrInvalidSignature (ih_Signature hdr))) s r1
    else
      let size := ih_Size hdr in
      match version_size hdr with
      | None => mkReadResult size (Some ErrUnknownVersion) s r1
      | Some size =>
        if size <? 64 then
          mkReadResult size (Some ErrSizeTooSmall) s r1
        else
          (* rewind and read struct in full *)
          let r2 := Seek r1 (- Z.of_nat size_InfoStructHeader) SeekCurrent in
          match ReadFull r2 (Z.to_nat size) with
          | (r3, inl e) => mkReadResult size (Some (ErrIO e)) s r3
          | (r3, inr buf) =>
            match binary_Read r3 size_ValidationHeader dec_ValidationHeader with
            | (r4, inl e) =>
              mkReadResult size (Some (ErrValidationHeader e)) s r4
            | (r4, inr validation) =>
              (* verify CRC *)
              let checksum := ChecksumIEEE buf in
              if negb (checksum =? val_Crc32 validation) then
                mkReadResult size
                  (Some (ErrChecksumMismatch (val_Crc32 validation) checksum))
                  s r4
              else
                let size := add64 size (val_Size validation) in
                (* parse whatever we read & verified *)
                match binary_Read (mkReader buf 0) size_InfoStruct dec_InfoStruct with
                | (_, inl e) => mkReadResult size (Some (ErrIO e)) s r4
                | (_, inr s') => mkReadResult size None s' r4
                end
            end
          end
      end
  end.

(* ================================================================== *)
(** * Guid.String and the known format identifier *)

Definition hex_digit (d : Z) : ascii :=
  nth (Z.to_nat d) (list_ascii_of_string "0123456789ABCDEF") "0"%char.

(** [w] hexadecimal digits of [v], most significant first. *)
Fixpoint hex_digits (w : nat) (v : Z) : string :=
  match w with
  | O => EmptyString
  | S w' => String (hex_digit ((v / 16 ^ Z.of_nat w') mod 16)) (hex_digits w' v)
  end.

(** Number of hexadecimal digits of a non-negative [v]. *)
Definition hex_len (v : Z) : nat :=
  if v =? 0 then 1%nat else Z.to_nat (Z.log2 v / 4 + 1).

(** The verb [%0wX] of [fmt] on an unsigned value: upper-case
    hexadecimal, padded with zeros to at least [w] digits. *)
Definition fmt_X (w : nat) (v : Z) : string :=
  hex_digits (Nat.max w (hex_len v)) v.

Definition byte_at (bs : list byte) (i : nat) : Z := byte_to_Z (nth i bs x00).

Local Open Scope string_scope.

(** [fmt.Sprintf("%08X-%04X-%04X-%02X%02X-%02X%02X%02X%02X%02X%02X", ...)] *)
Definition Guid_String (g : Guid) : string :=
  fmt_X 8 (guid_A g) ++ "-" ++ fmt_X 4 (guid_B g) ++ "-" ++ fmt_X 4 (guid_C g)
  ++ "-" ++ fmt_X 2 (byte_at (guid_D g) 0) ++ fmt_X 2 (byte_at (guid_D g) 1)
  ++ "-" ++ fmt_X 2 (byte_at (guid_E g) 0) ++ fmt_X 2 (byte_at (guid_E g) 1)
  ++ fmt_X 2 (byte_at (guid_E g) 2) ++ fmt_X 2 (byte_at (guid_E g) 3)
  ++ fmt_X 2 (byte_at (guid_E g) 4) ++ fmt_X 2 (byte_at (guid_E g) 5).

Definition INFO_GUID : string := "4967D63B-2E29-4AD8-8399-F6A339E3D001".

(* ================================================================== *)
(** * Output, termination and the environment *)

Inductive Msg : Type :=
| MsgMetadataOffset (i : nat) (off : Z)   (* "metadata offset %d: 0x%08x\n" *)
| MsgVolumeHeader (hdr : VolumeHeader)    (* "volume header:\n%+v\n" *)
| MsgCantParse (i : nat) (e : Error)      (* "can't parse metadata block %d: %+v\n" *)
| MsgMetadataBlock (i : nat) (size : Z)   (* "metadata block %d (size %d):" *)
| MsgInfoStruct (info : InfoStruct)       (* "\n%+v\n" *)
| MsgParsedOK                             (* " parsed OK\n" *)
| MsgOverwriting (name : string) (off size : Z)
                                          (* "overwriting %s at offset 0x%x size %d...\n" *)
| MsgUnableToWrite.                       (* "unable to write region: %v\n" *)

(** The calls of [fatal], by their format string. *)
Inductive Fatal : Type :=
| FatalOffsetNegative
| FatalCantOpen
| FatalCantReadHeader (e : IOError)
| FatalHeaderSignature (sig : list byte)
| FatalSectorSize (n : Z)
| FatalGuid (g : Guid)
| FatalNoMetadata
| FatalRand.

Definition fatal_format (f : Fatal) : string :=
  match f with
  | FatalOffsetNegative => "offset cannot be negative"
  | FatalCantOpen => "can't open file: %s"
  | FatalCantReadHeader _ => "can't read header: %s"
  | FatalHeaderSignature _ => "invalid volume header signature %q"
  | FatalSectorSize _ => "weird sector size: %d"
  | FatalGuid _ => "unsupported GUID %v"
  | FatalNoMetadata => "invalid or no metadata blocks found!"
  | FatalRand => "unable to generate rand bytes: %v"
  end.

Definition newline : string := String (ascii_of_nat 10) EmptyString.

(** The format [fatal] hands to [fmt.Fprintf(os.Stderr, ...)]: a newline
    is appended unless the format is empty or ends in one. *)
Definition fatal_line (format : string) : string :=
  if Nat.ltb 0 (String.length format)
     && negb (String.eqb (substring (String.length format - 1) 1 format) newline)
  then format ++ newline
  else format.

Local Close Scope string_scope.

Inductive Event : Type :=
| Stdout (m : Msg)
| Stderr (line : string) (f : Fatal)      (* the format printed, and its call *)
| Usage
| RandRead (n : nat) (ok : bool)          (* rand.Read on a buffer of n bytes *)
| FileWrite (pos : Z) (buf : list byte) (fault : option nat).
                                          (* f.Write(buf) with the file at pos *)

Inductive Termination : Type :=
| Exit (code : Z)
| Panic.

(** The environment: what the [k]-th call of [rand.Read] fills its buffer
    with, if it succeeds; whether the [k]-th [f.Write] fails, and after
    how many bytes; and the largest offset behind the end of the file
    that its file system or device lets it seek to (none on a block
    device, where it is at most the size of the device). *)
Record Env : Type := mkEnv {
  rand_source : nat -> option (nat -> byte);
  write_fault : nat -> option nat;
  seek_max : Z
}.

(** [f.Seek(off, 0)] on the file: an offset that is negative, or that
    lies behind both the end of the file and what the file system or
    device allows, is refused and the file stays where it stood.  The
    source never looks at the result. *)
Definition File_Seek (env : Env) (f : Reader) (off : Z) : Reader :=
  if (0 <=? off) && (off <? two63)
     && ((off <=? Z.of_nat (length (rdata f))) || (off <=? seek_max env))
  then mkReader (rdata f) off
  else f.

Record World : Type := mkWorld {
  w_file : Reader;
  w_log : list Event;
  w_rand : nat;               (* calls of rand.Read so far *)
  w_write : nat               (* calls of f.Write so far *)
}.

Definition emit (e : Event) (w : World) : World :=
  mkWorld (w_file w) (w_log w ++ [e]) (w_rand w) (w_write w).

Definition with_file (f : Reader) (w : World) : World :=
  mkWorld f (w_log w) (w_rand w) (w_write w).

(** [fatal(format, ...)]: print and [os.Exit(1)]. *)
Definition fatal (f : Fatal) (w : World) : Termination * World :=
  (Exit 1, emit (Stderr (fatal_line (fatal_format f)) f) w).

(** The file after [len(buf)] bytes are stored at its position; a
    position past the end leaves a gap of zeros. *)
Definition store (f : Reader) (buf : list byte) : Reader :=
  match buf with
  | [] => f
  | _ =>
    let p := Z.to_nat (rpos f) in
    let d := rdata f ++ repeat x00 (p - length (rdata f)) in
    mkReader (firstn p d ++ buf ++ skipn (p + length buf) d)
             (rpos f + Z.of_nat (length buf))
  end.

(** [rand.Read(eraseBuf)] *)
Definition rand_Read (env : Env) (n : nat) (w : World)
  : option (list byte) * World :=
  let w' := mkWorld (w_file w) (w_log w) (S (w_rand w)) (w_write w) in
  match rand_source env (w_rand w) with
  | Some g => (Some (map g (seq 0 n)), emit (RandRead n true) w')
  | None => (None, emit (RandRead n false) w')
  end.

(** [f.Write(buf)]: [true] when it returned an error. *)
Definition file_Write (env : Env) (buf : list byte) (w : World) : bool * World :=
  let fault := write_fault env (w_write w) in
  let written := match fault with
                 | None => buf
                 | Some n => firstn (Nat.min n (length buf - 1)) buf
                 end in
  let w' := mkWorld (store (w_file w) written) (w_log w) (w_rand w) (S (w_write w)) in
  (match fault with None => false | Some _ => true end,
   emit (FileWrite (rpos (w_file w)) buf fault) w').

(* ================================================================== *)
(** * main *)

Record Flags : Type := mkFlags {
  offset : Z;                 (* -offset, an int64 *)
  verbose : bool;             (* -v *)
  doWipe : bool;              (* -wipe *)
  NArg : nat                  (* flag.NArg() *)
}.

(** The three checks on the volume header, in the order of the source. *)
Definition validate_header (hdr : VolumeHeader) : option Fatal :=
  if negb (VerifySignature (vh_Signature hdr)) then
    Some (FatalHeaderSignature (vh_Signature hdr))
  else if vh_SectorSize hdr <? 512 then
    Some (FatalSectorSize (vh_SectorSize hdr))
  else if negb (String.eqb (Guid_String (vh_Guid hdr)) INFO_GUID) then
    Some (FatalGuid (vh_Guid hdr))
  else None.

(** [(infoSize + int64(hdr.SectorSize) - 1) & ^(int64(hdr.SectorSize) - 1)] *)
Definition round_up_sector (infoSize sectorSize : Z) : Z :=
  and64 (sub64 (add64 infoSize sectorSize) 1) (not64 (sub64 sectorSize 1)).

(** The variables of [main] that live across the loop over the three
    candidates. *)
Record Probe : Type := mkProbe {
  info : InfoStruct;
  validInfoSize : Z;
  validInfoOffsets : list Z           (* [3]int64 *)
}.

(** [InfoStruct{}] *)
Definition zero_InfoStruct : InfoStruct :=
  mkInfoStruct (mkInfoHeader (repeat x00 8) 0 0) 0 0 0 [0; 0; 0] 0.

Definition zero_Probe : Probe := mkProbe zero_InfoStruct 0 [0; 0; 0].

(** One turn of the loop [// check info structs]. *)
Definition probe_block (env : Env) (fl : Flags) (hdr : VolumeHeader)
    (st : Probe * World) (i : nat) : Probe * World :=
  let (p, w) := st in
  let f := File_Seek env (w_file w)
                     (add64 (offset fl)
                            (int64_of_uint64 (nth i (vh_InfoOffsets hdr) 0))) in
  let res := InfoStruct_Read (info p) f in
  let w := with_file (res_reader res) w in
  match res_err res with
  | Some e =>
    (mkProbe (res_info res) (validInfoSize p) (validInfoOffsets p),
     emit (Stdout (MsgCantParse i e)) w)
  | None =>
    let infoSize := res_size res in
    (* record valid data here *)
    let p' := mkProbe (res_info res) infoSize
                      (map int64_of_uint64 (is_InfoOffsets (res_info res))) in
    (* round up to sector size *)
    let infoSize := round_up_sector infoSize (vh_SectorSize hdr) in
    let w := emit (Stdout (MsgMetadataBlock i infoSize)) w in
    (p', if verbose fl then emit (Stdout (MsgInfoStruct (res_info res))) w
         else emit (Stdout MsgParsedOK) w)
  end.

Definition probe_blocks (env : Env) (fl : Flags) (hdr : VolumeHeader) (w : World)
  : Probe * World :=
  fold_left (probe_block env fl hdr) (seq 0 3) (zero_Probe, w).

Local Open Scope string_scope.

Definition eraseRegions (hdr : VolumeHeader) (p : Probe) : list RegionDesc :=
  [ mkRegion "volume header" 0 (vh_SectorSize hdr);
    mkRegion "metadata block 0" (nth 0 (validInfoOffsets p) 0) (validInfoSize p);
    mkRegion "metadata block 1" (nth 1 (validInfoOffsets p) 0) (validInfoSize p);
    mkRegion "metadata block 2" (nth 2 (validInfoOffsets p) 0) (validInfoSize p) ].

Local Close Scope string_scope.

(** The loop over [eraseRegions]; [None] when it runs to its end. *)
Fixpoint wipe (env : Env) (base : Z) (regions : list RegionDesc) (w : World)
  : option Termination * World :=
  match regions with
  | [] => (None, w)
  | region :: rest =>
    if Size region <? 0 then (Some Panic, w)   (* make([]byte, n) with n < 0 *)
    else
      match rand_Read env (Z.to_nat (Size region)) w with
      | (None, w) =>
        let (t, w) := fatal FatalRand w in (Some t, w)
      | (Some eraseBuf, w) =>
        let w := emit (Stdout (MsgOverwriting (Name region) (Offset region)
                                              (Size region))) w in
        let w := with_file (File_Seek env (w_file w) (add64 base (Offset region))) w in
        let (failed, w) := file_Write env eraseBuf w in
        if failed then wipe env base rest (emit (Stdout MsgUnableToWrite) w)
        else wipe env base rest w
      end
  end.

Definition print_offsets (hdr : VolumeHeader) (w : World) : World :=
  fold_left (fun w i => emit (Stdout (MsgMetadataOffset i (nth i (vh_InfoOffsets hdr) 0))) w)
            (seq 0 3) w.

(** [main] after [flag.Parse]; [image] is the file named on the command
    line, [None] when it cannot be opened for reading and writing. *)
Definition main (env : Env) (fl : Flags) (image : option (list byte))
  : Termination * World :=
  let w := mkWorld (mkReader [] 0) [] 0 0 in
  if negb (Nat.eqb (NArg fl) 1) then (Exit 2, emit Usage w)
  else if offset fl <? 0 then fatal FatalOffsetNegative w
  else
    match image with
    | None => fatal FatalCantOpen w
    | Some bytes =>
      let w := with_file (File_Seek env (mkReader bytes 0) (offset fl)) w in
      match binary_Read (w_file w) size_VolumeHeader dec_VolumeHeader with
      | (f, inl e) => fatal (FatalCantReadHeader e) (with_file f w)
      | (f, inr hdr) =>
        let w := with_file f w in
        (* validate headers *)
        match validate_header hdr with
        | Some bad => fatal bad w
        | None =>
          let w := print_offsets hdr w in
          let w := if verbose fl then emit (Stdout (MsgVolumeHeader hdr)) w else w in
          (* check info structs *)
          let (p, w) := probe_blocks env fl hdr w in
          if validInfoSize p =? 0 then fatal FatalNoMetadata w
          else if doWipe fl then
            match wipe env (offset fl) (eraseRegions hdr p) w with
            | (Some t, w) => (t, w)
            | (None, w) => (Exit 0, w)
            end
          else (Exit 0, w)
        end
      end
    end.

(* ================================================================== *)
(** * Vocabulary of the statements

    The statements about [InfoStruct.Read] are phrased over the bytes of
    the source at the position of the reader, those about [main] over
    the log of the run. *)

(** ** What lies at the reader's position *)

(** [n] more bytes can be read at the position of [r]; a source is
    shorter than [2^63] bytes, so that its positions are [int64]. *)
Definition in_bounds (r : Reader) (n : Z) : bool :=
  (0 <=? rpos r)
  && (rpos r + n <=? Z.of_nat (length (rdata r)))
  && (Z.of_nat (length (rdata r)) <? two63).

(** The [len] bytes that start [off] bytes after the position of [r]. *)
Definition bytes_at (r : Reader) (off len : Z) : list byte :=
  slice (rdata r) (Z.to_nat (rpos r + off)) (Z.to_nat len).

Definition advance (r : Reader) (n : Z) : Reader :=
  mkReader (rdata r) (rpos r + n).

(** The 12-byte header at the position of [r]. *)
Definition header_at (r : Reader) : option InfoStructHeader :=
  if in_bounds r 12
  then Some (fst (dec_InfoStructHeader (bytes_at r 0 12)))
  else None.

(** The validation header that follows a payload of [size] bytes. *)
Definition footer_at (r : Reader) (size : Z) : option ValidationHeader :=
  if in_bounds r (size + 8)
  then Some (fst (dec_ValidationHeader (bytes_at r size 8)))
  else None.

(** ** What a log shows *)

Definition is_rand (e : Event) : bool :=
  match e with RandRead _ _ => true | _ => false end.

(** The regions announced on standard output. *)
Definition announced (log : list Event) : list RegionDesc :=
  flat_map (fun e => match e with
                     | Stdout (MsgOverwriting n o s) => [mkRegion n o s]
                     | _ => []
                     end) log.

(** Position and length of every write. *)
Definition extents (log : list Event) : list (Z * Z) :=
  flat_map (fun e => match e with
                     | FileWrite pos buf _ => [(pos, Z.of_nat (length buf))]
                     | _ => []
                     end) log.

(** ** The volume header *)

Definition magic : list byte := list_byte_of_string "-FVE-FS-".

(** The format identifier that [INFO_GUID] spells. *)
Definition known_guid : Guid :=
  mkGuid 0x4967D63B 0x2E29 0x4AD8 [x83; x99] [xf6; xa3; x39; xe3; xd0; x01].

(** The fields of a [Guid] are in the range of their Go types. *)
Definition wf_Guid (g : Guid) : Prop :=
  0 <= guid_A g < 2 ^ 32 /\ 0 <= guid_B g < 2 ^ 16 /\ 0 <= guid_C g < 2 ^ 16
  /\ length (guid_D g) = 2%nat /\ length (guid_E g) = 6%nat.

Definition is_power_of_two (z : Z) : Prop := exists k, 0 <= k /\ z = 2 ^ k.

(** The volume header at the position of [r]. *)
Definition volume_header_at (r : Reader) : option VolumeHeader :=
  if in_bounds r 216
  then Some (fst (dec_VolumeHeader (bytes_at r 0 216)))
  else None.

(** ** The wipe executor *)

(** The writes of a log, with the file position of each. *)
Definition writes (log : list Event) : list (Z * list byte) :=
  flat_map (fun e => match e with
                     | FileWrite pos buf _ => [(pos, buf)]
                     | _ => []
                     end) log.

(** How often a failed write was reported. *)
Definition reported (log : list Event) : nat :=
  length (filter (fun e => match e with
                           | Stdout MsgUnableToWrite => true
                           | _ => false
                           end) log).

(** What the [k]-th call of [rand.Read] puts in a buffer of [n] bytes. *)
Definition rand_buffer (env : Env) (k : nat) (n : Z) : list byte :=
  match rand_source env k with
  | Some g => map g (seq 0 (Z.to_nat n))
  | None => []
  end.

(** Of [n] calls of [rand.Read] from the [k]-th on, how many succeed
    before the first that fails. *)
Fixpoint available (env : Env) (k n : nat) : nat :=
  match n with
  | O => O
  | S n' => match rand_source env k with
            | Some _ => S (available env (S k) n')
            | None => O
            end
  end.

(** Of [n] calls of [f.Write] from the [k]-th on, how many fail. *)
Definition faults (env : Env) (k n : nat) : nat :=
  length (filter (fun j => match write_fault env j with
                           | Some _ => true
                           | None => false
                           end) (seq k n)).

(** ** The loop over the candidates *)

(** The reader on which the [i]-th candidate is decoded. *)
Definition candidate (env : Env) (fl : Flags) (hdr : VolumeHeader) (f : Reader)
    (i : nat) : Reader :=
  File_Seek env f
            (add64 (offset fl) (int64_of_uint64 (nth i (vh_InfoOffsets hdr) 0))).

(** The calls of [info.Read] that the loop makes, each on the receiver
    and on the file as the call before left them. *)
Fixpoint replay (env : Env) (fl : Flags) (hdr : VolumeHeader) (s : InfoStruct)
    (f : Reader) (candidates : list nat) : list ReadResult :=
  match candidates with
  | [] => []
  | i :: rest =>
    let res := InfoStruct_Read s (candidate env fl hdr f i) in
    res :: replay env fl hdr (res_info res) (res_reader res) rest
  end.

(** Events other than writes, calls of [rand.Read] and announcements of
    a region. *)
Definition quiet (e : Event) : bool :=
  match e with
  | Stdout (MsgOverwriting _ _ _) => false
  | Stdout _ => true
  | Stderr _ _ => true
  | Usage => true
  | RandRead _ _ => false
  | FileWrite _ _ _ => false
  end.

(** [w'] comes from [w] without a write and without a call of
    [rand.Read]. *)
Definition reads_only (w w' : World) : Prop :=
  rdata (w_file w') = rdata (w_file w)
  /\ w_rand w' = w_rand w /\ w_write w' = w_write w
  /\ exists new, w_log w' = w_log w ++ new /\ forallb quiet new = true.

(** ** The erase plan *)

(** What the loop records for a candidate that validates. *)
Definition recorded (res : ReadResult) : Probe :=
  mkProbe (res_info res) (res_size res)
          (map int64_of_uint64 (is_InfoOffsets (res_info res))).

(** The last call that succeeded. *)
Fixpoint last_valid (results : list ReadResult) : option ReadResult :=
  match results with
  | [] => None
  | res :: rest =>
    match last_valid rest with
    | Some later => Some later
    | None => match res_err res with
              | None => Some res
              | Some _ => None
              end
    end
  end.

(** ** Sources that end early, identifiers by their bytes, reports *)

(** A reader whose position is not negative, on a source shorter than
    [2^63] bytes. *)
Definition wf_reader (r : Reader) : Prop :=
  0 <= rpos r /\ Z.of_nat (length (rdata r)) < two63.

(** The reader at the end of its source. *)
Definition at_end (r : Reader) : Reader :=
  mkReader (rdata r) (Z.of_nat (length (rdata r))).

(** What [io.ReadFull] answers when it cannot fill its buffer. *)
Definition short_read (r : Reader) : IOError :=
  if Z.of_nat (length (rdata r)) <=? rpos r then EOF else ErrUnexpectedEOF.

(** The sixteen bytes of a header that spell [INFO_GUID]. *)
Definition INFO_GUID_bytes : list byte :=
  [x3b; xd6; x67; x49; x29; x2e; xd8; x4a;
   x83; x99; xf6; xa3; x39; xe3; xd0; x01].

(** The candidates a log reports on, as parsed or as not parsed. *)
Definition reports (log : list Event) : list nat :=
  flat_map (fun e => match e with
                     | Stdout (MsgCantParse i _) => [i]
                     | Stdout (MsgMetadataBlock i _) => [i]
                     | _ => []
                     end) log.

(** The byte at place [i] of a file; beyond its end a file reads as
    zeros once it is extended. *)
Definition byte_of (data : list byte) (i : Z) : byte :=
  nth (Z.to_nat i) data x00.

(** The file [f] can be brought to [target]: the offset is not
    negative and lies within the file or within what its file system or
    device lets it seek to. *)
Definition reachable (env : Env) (f : Reader) (target : Z) : Prop :=
  0 <= target < two63
  /\ (target <= Z.of_nat (length (rdata f)) \/ target <= seek_max env).

(** Place [i] lies in the region [r] of a volume that starts at [base]. *)
Definition inside (base : Z) (r : RegionDesc) (i : Z) : Prop :=
  base + Offset r <= i < base + Offset r + Size r.

(** ** The run behind the header *)

(** What [main] does once the header is decoded, from [// validate
    headers] on. *)
Definition after_header (env : Env) (fl : Flags) (hdr : VolumeHeader)
    (w : World) : Termination * World :=
  match validate_header hdr with
  | Some bad => fatal bad w
  | None =>
    let w := print_offsets hdr w in
    let w := if verbose fl then emit (Stdout (MsgVolumeHeader hdr)) w else w in
    let (p, w) := probe_blocks env fl hdr w in
    if validInfoSize p =? 0 then fatal FatalNoMetadata w
    else if doWipe fl then
      match wipe env (offset fl) (eraseRegions hdr p) w with
      | (Some t, w) => (t, w)
      | (None, w) => (Exit 0, w)
      end
    else (Exit 0, w)
  end.

(** The world in which the loop over the candidates starts. *)
Definition before_probe (fl : Flags) (hdr : VolumeHeader) (w : World) : World :=
  if verbose fl
  then emit (Stdout (MsgVolumeHeader hdr)) (print_offsets hdr w)
  else print_offsets hdr w.

(* ================================================================== *)
(** * Sample images

    Encoders for the on-disk layout, used to build the concrete volumes
    on which the statements below are exercised. *)

Module Sample.

Definition byte_of_Z (z : Z) : byte :=
  match Byte.of_N (Z.to_N (z mod 256)) with
  | Some b => b
  | None => x00
  end.

Fixpoint le_bytes (w : nat) (v : Z) : list byte :=
  match w with
  | O => []
  | S w' => byte_of_Z v :: le_bytes w' (v / 256)
  end.

Definition zeros (n : nat) : list byte := repeat x00 n.

Definition pad_to (n : nat) (bs : list byte) : list byte :=
  bs ++ zeros (n - length bs).

Definition guid_bytes : list byte :=
  le_bytes 4 0x4967D63B ++ le_bytes 2 0x2E29 ++ le_bytes 2 0x4AD8
  ++ [x83; x99] ++ [xf6; xa3; x39; xe3; xd0; x01].

(** A volume header with the given sector size and metadata offsets. *)
Definition volume_header (sectorSize : Z) (offs : list Z) : list byte :=
  [xeb; x58; x90] ++ magic ++ le_bytes 2 sectorSize ++ [x08] ++ le_bytes 2 0
  ++ zeros 20 ++ zeros 4
  ++ le_bytes 8 0 ++ le_bytes 8 0 ++ le_bytes 8 0
  ++ zeros 96 ++ guid_bytes
  ++ flat_map (le_bytes 8) offs
  ++ le_bytes 8 0 ++ le_bytes 8 0.

(** The payload of a metadata block: [len] bytes, of which the first 64
    are the fields of [InfoStruct]. *)
Definition payload (len : nat) (sizeField version : Z) (offs : list Z)
  : list byte :=
  pad_to len
    (magic ++ le_bytes 2 sizeField ++ le_bytes 2 version ++ zeros 4
     ++ le_bytes 8 0x40000000 ++ le_bytes 4 0 ++ le_bytes 4 0x10
     ++ flat_map (le_bytes 8) offs ++ le_bytes 8 0x2000).

Definition footer (extra : Z) (crc : Z) : list byte :=
  le_bytes 2 extra ++ le_bytes 2 1 ++ le_bytes 4 crc.

(** A payload followed by a validation header with the right checksum. *)
Definition block (len : nat) (sizeField version extra : Z) (offs : list Z)
  : list byte :=
  let p := payload len sizeField version offs in
  p ++ footer extra (ChecksumIEEE p).

(** The same with a checksum that is off by one bit. *)
Definition stale_block (len : nat) (sizeField version extra : Z) (offs : list Z)
  : list byte :=
  let p := payload len sizeField version offs in
  p ++ footer extra (Z.lxor (ChecksumIEEE p) 1).

Definition offsets : list Z := [512; 1024; 1536].

(** Sector size 512, three candidates at 512, 1024 and 1536. *)
Definition image_of (b0 b1 b2 : list byte) : list byte :=
  pad_to 512 (volume_header 512 offsets)
  ++ pad_to 512 b0 ++ pad_to 512 b1 ++ pad_to 512 b2.

Definition good_block : list byte := block 64 64 1 8 offsets.

(** Three good copies. *)
Definition image : list byte := image_of good_block good_block good_block.

(** Only the middle copy is good, and it records other offsets than the
    header does. *)
Definition image_one : list byte :=
  image_of (stale_block 64 64 1 8 offsets)
           (block 64 4 2 8 [600; 1100; 1600])
           (zeros 72).

(** No copy is good: a stale checksum, an unknown version, no signature. *)
Definition image_none : list byte :=
  image_of (stale_block 64 64 1 8 offsets) (block 64 64 3 8 offsets) (zeros 72).

(** A header whose sector size is not a power of two. *)
Definition image_768 : list byte :=
  pad_to 768 (volume_header 768 [768; 1536; 2304])
  ++ pad_to 768 good_block ++ pad_to 768 good_block ++ pad_to 768 good_block.

(** A copy whose size field is below the minimum. *)
Definition small_block : list byte := block 64 32 1 8 offsets.

(** A copy of a version that is not known. *)
Definition odd_block : list byte := block 64 64 3 8 offsets.

Definition stale : list byte := stale_block 64 64 1 8 offsets.

(** What [good_block] decodes to. *)
Definition good_info : InfoStruct :=
  mkInfoStruct (mkInfoHeader magic 64 1) 0x40000000 0 0x10 offsets 0x2000.

(** What [volume_header] decodes to. *)
Definition header (sectorSize : Z) (offs : list Z) : VolumeHeader :=
  mkVolumeHeader [xeb; x58; x90] magic sectorSize 8 0 0 0 0 known_guid
                 offs [0; 0].

(** A volume whose header has a sector size below 512. *)
Definition image_256 : list byte := pad_to 512 (volume_header 256 offsets).

(** Random bytes without end, and no failing write. *)
Definition env : Env :=
  mkEnv (fun k => Some (fun i => byte_of_Z (Z.of_nat (17 * k + i))))
        (fun _ => None) (2 ^ 44).

(** The first write fails after one byte; [rand.Read] fails from its
    third call on. *)
Definition faulty_env : Env :=
  mkEnv (fun k => if Nat.ltb k 2 then Some (fun _ => xff) else None)
        (fun k => if Nat.eqb k 0 then Some 1%nat else None) 0.

Definition flags (wipe : bool) : Flags := mkFlags 0 false wipe 1.

Definition regions : list RegionDesc :=
  [ mkRegion "volume header" 0 512;
    mkRegion "metadata block 0" 512 72;
    mkRegion "metadata block 1" 1024 72;
    mkRegion "metadata block 2" 1536 72 ].

(** The world of [main] on [image] when the loop over the regions
    starts. *)
Definition world : World := mkWorld (mkReader image 1608) [] 0 0.

(** Three good copies that record [0xffffffffffffffff] as their first
    offset. *)
Definition image_far : list byte :=
  image_of (block 64 64 1 8 [0xffffffffffffffff; 1024; 1536])
           (block 64 64 1 8 [0xffffffffffffffff; 1024; 1536])
           (block 64 64 1 8 [0xffffffffffffffff; 1024; 1536]).

(** The first [n] bytes of [good_block]: a source that ends early. *)
Definition cut (n : nat) : Reader := mkReader (firstn n good_block) 0.

Definition other_guid : Guid :=
  mkGuid 0x4967D63B 0x2E29 0x4AD8 [x83; x99] [xf6; xa3; x39; xe3; xd0; x02].

End Sample.

Ltac by_eval := vm_compute; reflexivity.

(* ================================================================== *)
(** * The checksum *)

(** The check value of CRC-32. *)
Example ChecksumIEEE_check :
  ChecksumIEEE (list_byte_of_string "123456789") = 0xcbf43926.
Proof. by_eval. Qed.

(* ================================================================== *)
(** * Arithmetic of the machine integers *)

Lemma wrap64_small (z : Z) : - two63 <= z < two63 -> wrap64 z = z.
Proof.
  unfold wrap64, int64_of_uint64, two63, two64. intros H.
  destruct (Z.ltb_spec (z mod 2 ^ 64) (2 ^ 63)) as [L | L].
  - destruct (Z.le_gt_cases 0 z) as [P | N].
    + apply Z.mod_small. lia.
    + assert (E : z mod 2 ^ 64 = z + 2 ^ 64).
      { symmetry. apply (Z.mod_unique_pos z (2 ^ 64) (-1)); lia. }
      lia.
  - destruct (Z.le_gt_cases 0 z) as [P | N].
    + rewrite Z.mod_small in L by lia. lia.
    + assert (E : z mod 2 ^ 64 = z + 2 ^ 64).
      { symmetry. apply (Z.mod_unique_pos z (2 ^ 64) (-1)); lia. }
      lia.
Qed.

Lemma int64_of_uint64_small (z : Z) : 0 <= z < two63 -> int64_of_uint64 z = z.
Proof.
  unfold int64_of_uint64. intros H.
  destruct (Z.ltb_spec z two63); lia.
Qed.

Lemma byte_to_Z_range (b : byte) : 0 <= byte_to_Z b < 256.
Proof.
  unfold byte_to_Z. pose proof (Byte.to_N_bounded b). lia.
Qed.

Lemma le_uint_range (bs : list byte) :
  0 <= le_uint bs < 256 ^ Z.of_nat (length bs).
Proof.
  induction bs as [| b bs IH].
  - simpl. lia.
  - cbn [le_uint length]. rewrite Nat2Z.inj_succ, Z.pow_succ_r by lia.
    pose proof (byte_to_Z_range b). lia.
Qed.

Lemma le_uint_firstn_range (w : nat) (bs : list byte) :
  0 <= le_uint (firstn w bs) < 256 ^ Z.of_nat w.
Proof.
  pose proof (le_uint_range (firstn w bs)) as H.
  pose proof (firstn_le_length w bs) as L.
  assert (256 ^ Z.of_nat (length (firstn w bs)) <= 256 ^ Z.of_nat w).
  { apply Z.pow_le_mono_r; lia. }
  lia.
Qed.

(* ================================================================== *)
(** * Reading in bounds *)

Lemma in_bounds_inv (r : Reader) (n : Z) :
  in_bounds r n = true ->
  0 <= rpos r /\ rpos r + n <= Z.of_nat (length (rdata r))
  /\ Z.of_nat (length (rdata r)) < two63.
Proof.
  unfold in_bounds. rewrite !andb_true_iff.
  rewrite !Z.leb_le, Z.ltb_lt. tauto.
Qed.

Lemma in_bounds_weaken (r : Reader) (n m : Z) :
  m <= n -> in_bounds r n = true -> in_bounds r m = true.
Proof.
  intros L H. apply in_bounds_inv in H. unfold in_bounds.
  rewrite !andb_true_iff, !Z.leb_le, Z.ltb_lt. lia.
Qed.

Lemma ReadFull_in_bounds (r : Reader) (n : nat) :
  in_bounds r (Z.of_nat n) = true ->
  ReadFull r n = (advance r (Z.of_nat n), inr (bytes_at r 0 (Z.of_nat n))).
Proof.
  intros H. apply in_bounds_inv in H. destruct H as (Hp & Hn & _).
  unfold ReadFull, advance, bytes_at, slice.
  rewrite Z.add_0_r, Nat2Z.id.
  destruct n as [| n].
  - cbn [Nat.eqb firstn]. destruct r as [d p]. cbn [rdata rpos].
    rewrite Z.add_0_r. reflexivity.
  - cbn [Nat.eqb].
    destruct (Z.leb_spec (Z.of_nat (length (rdata r))) (rpos r)) as [L | L];
      [lia |].
    assert (E : length (skipn (Z.to_nat (rpos r)) (rdata r))
                = (length (rdata r) - Z.to_nat (rpos r))%nat)
      by apply length_skipn.
    rewrite E.
    destruct (Nat.eqb_spec (length (rdata r) - Z.to_nat (rpos r)) 0) as [Z0 | Z0];
      [lia |].
    destruct (Nat.ltb_spec (length (rdata r) - Z.to_nat (rpos r)) (S n)) as [Lt | Ge];
      [lia |].
    reflexivity.
Qed.

Lemma binary_Read_in_bounds {A} (r : Reader) (n : nat) (dec : Cursor A) :
  in_bounds r (Z.of_nat n) = true ->
  binary_Read r n dec
  = (advance r (Z.of_nat n), inr (fst (dec (bytes_at r 0 (Z.of_nat n))))).
Proof.
  intros H. unfold binary_Read. rewrite (ReadFull_in_bounds r n H). reflexivity.
Qed.

Lemma header_at_read (r : Reader) (hdr : InfoStructHeader) :
  header_at r = Some hdr ->
  binary_Read r size_InfoStructHeader dec_InfoStructHeader
  = (advance r 12, inr hdr).
Proof.
  unfold header_at. intros H.
  destruct (in_bounds r 12) eqn:B; [| discriminate].
  injection H as <-.
  apply (binary_Read_in_bounds r size_InfoStructHeader). exact B.
Qed.

(** The size field of a decoded header is a [uint16]. *)
Lemma header_at_size_range (r : Reader) (hdr : InfoStructHeader) :
  header_at r = Some hdr -> 0 <= ih_Size hdr < 65536.
Proof.
  unfold header_at. intros H.
  destruct (in_bounds r 12); [| discriminate].
  injection H as <-.
  cbv [dec_InfoStructHeader cbind cret take_bytes uint16 uint fst ih_Size].
  apply (le_uint_firstn_range 2).
Qed.

Lemma footer_at_size_range (r : Reader) (size : Z) (v : ValidationHeader) :
  footer_at r size = Some v -> 0 <= val_Size v < 65536.
Proof.
  unfold footer_at. intros H.
  destruct (in_bounds r (size + 8)); [| discriminate].
  injection H as <-.
  cbv [dec_ValidationHeader cbind cret uint16 uint32 uint fst val_Size].
  apply (le_uint_firstn_range 2).
Qed.

Lemma version_size_range (hdr : InfoStructHeader) (size : Z) :
  0 <= ih_Size hdr < 65536 -> version_size hdr = Some size ->
  0 <= size < 1048576.
Proof.
  unfold version_size. intros R H.
  destruct (ih_Version hdr =? 1).
  - injection H as <-. lia.
  - destruct (ih_Version hdr =? 2); [| discriminate].
    injection H as <-. unfold mul64.
    rewrite wrap64_small; unfold two63; lia.
Qed.

Lemma in_bounds_intro (r : Reader) (n : Z) :
  0 <= rpos r -> rpos r + n <= Z.of_nat (length (rdata r)) ->
  Z.of_nat (length (rdata r)) < two63 ->
  in_bounds r n = true.
Proof.
  intros. unfold in_bounds.
  rewrite !andb_true_iff, !Z.leb_le, Z.ltb_lt. lia.
Qed.

(** [r.Seek(int64(-binary.Size(hdr)), 1)] after the header was read. *)
Lemma Seek_rewind (r : Reader) :
  in_bounds r 12 = true ->
  Seek (advance r 12) (- Z.of_nat size_InfoStructHeader) SeekCurrent = r.
Proof.
  intros H. apply in_bounds_inv in H. destruct H as (Hp & Hn & Hl).
  destruct r as [d p]. unfold Seek, advance. cbn [rpos rdata] in *.
  change (Z.of_nat size_InfoStructHeader) with 12.
  replace (p + 12 + - (12)) with p by lia.
  destruct (Z.leb_spec 0 p); [| lia].
  destruct (Z.ltb_spec p two63); [| lia].
  reflexivity.
Qed.

Lemma bytes_at_length (r : Reader) (off len : Z) :
  0 <= off -> 0 <= len -> in_bounds r (off + len) = true ->
  Z.of_nat (length (bytes_at r off len)) = len.
Proof.
  intros Ho Hl H. apply in_bounds_inv in H. destruct H as (Hp & Hn & _).
  unfold bytes_at, slice. rewrite length_firstn, length_skipn. lia.
Qed.

Lemma bytes_at_advance (r : Reader) (n off len : Z) :
  bytes_at (advance r n) off len = bytes_at r (n + off) len.
Proof.
  unfold bytes_at, advance. cbn [rdata rpos]. rewrite Z.add_assoc. reflexivity.
Qed.

(** The fields of an [InfoStruct], by their place in the payload. *)
Lemma dec_InfoStruct_fields (buf : list byte) :
  fst (dec_InfoStruct (firstn size_InfoStruct buf))
  = mkInfoStruct
      (mkInfoHeader (slice buf 0 8) (le_uint (slice buf 8 2))
                    (le_uint (slice buf 10 2)))
      (le_uint (slice buf 16 8))
      (le_uint (slice buf 24 4))
      (le_uint (slice buf 28 4))
      [le_uint (slice buf 32 8); le_uint (slice buf 40 8);
       le_uint (slice buf 48 8)]
      (le_uint (slice buf 56 8)).
Proof.
  cbv [dec_InfoStruct dec_InfoStructHeader cbind cret take_bytes skip
       uint16 uint32 uint64 uint fst slice].
  rewrite !skipn_skipn. cbn [Nat.add].
  change size_InfoStruct with 64%nat.
  rewrite !skipn_firstn_comm, !firstn_firstn. cbn [Nat.sub Nat.min].
  reflexivity.
Qed.

(** [InfoStruct.Read] on a candidate whose header has the signature and a
    known version, whose payload is at least 64 bytes and whose
    validation header can be read: the checksum decides. *)
Lemma InfoStruct_Read_block (s : InfoStruct) (r : Reader)
    (hdr : InfoStructHeader) (size : Z) (v : ValidationHeader) :
  header_at r = Some hdr ->
  VerifySignature (ih_Signature hdr) = true ->
  version_size hdr = Some size ->
  64 <= size ->
  footer_at r size = Some v ->
  InfoStruct_Read s r
  = if ChecksumIEEE (bytes_at r 0 size) =? val_Crc32 v
    then mkReadResult (size + val_Size v) None
           (fst (dec_InfoStruct (firstn size_InfoStruct (bytes_at r 0 size))))
           (advance r (size + 8))
    else mkReadResult size
           (Some (ErrChecksumMismatch (val_Crc32 v)
                                      (ChecksumIEEE (bytes_at r 0 size))))
           s (advance r (size + 8)).
Proof.
  intros Hh Hsig Hv Hmin Hf.
  pose proof (header_at_size_range r hdr Hh) as Rraw.
  pose proof (version_size_range hdr size Rraw Hv) as Rsize.
  pose proof (footer_at_size_range r size v Hf) as Rextra.
  assert (B12 : in_bounds r 12 = true).
  { unfold header_at in Hh. destruct (in_bounds r 12); [reflexivity | discriminate]. }
  assert (B : in_bounds r (size + 8) = true).
  { unfold footer_at in Hf. destruct (in_bounds r (size + 8)); [reflexivity | discriminate]. }
  assert (Ev : v = fst (dec_ValidationHeader (bytes_at r size 8))).
  { unfold footer_at in Hf. rewrite B in Hf. injection Hf as <-. reflexivity. }
  unfold InfoStruct_Read.
  rewrite (header_at_read r hdr Hh), Hsig. cbn [negb].
  rewrite Hv.
  destruct (Z.ltb_spec size 64) as [L | _]; [lia |].
  rewrite (Seek_rewind r B12).
  rewrite ReadFull_in_bounds
    by (rewrite Z2Nat.id by lia; apply (in_bounds_weaken r (size + 8)); [lia | exact B]).
  rewrite Z2Nat.id by lia.
  assert (B8 : in_bounds (advance r size) (Z.of_nat size_ValidationHeader) = true).
  { apply in_bounds_inv in B. destruct B as (Hp & Hn & Hl).
    apply in_bounds_intro; unfold advance; cbn [rpos rdata];
      change (Z.of_nat size_ValidationHeader) with 8; lia. }
  rewrite (binary_Read_in_bounds (advance r size) size_ValidationHeader _ B8).
  change (Z.of_nat size_ValidationHeader) with 8.
  rewrite bytes_at_advance, Z.add_0_r, <- Ev.
  replace (advance (advance r size) 8) with (advance r (size + 8))
    by (unfold advance; cbn [rpos rdata]; rewrite Z.add_assoc; reflexivity).
  destruct (ChecksumIEEE (bytes_at r 0 size) =? val_Crc32 v); cbn [negb];
    [| reflexivity].
  assert (Len : Z.of_nat (length (bytes_at r 0 size)) = size).
  { apply bytes_at_length; try lia.
    apply (in_bounds_weaken r (size + 8)); [lia | exact B]. }
  assert (B64 : in_bounds (mkReader (bytes_at r 0 size) 0)
                          (Z.of_nat size_InfoStruct) = true).
  { apply in_bounds_intro; cbn [rpos rdata];
      change (Z.of_nat size_InfoStruct) with 64; unfold two63; lia. }
  rewrite (binary_Read_in_bounds _ size_InfoStruct _ B64).
  unfold add64. rewrite wrap64_small by (unfold two63; lia).
  reflexivity.
Qed.

(** A part of the bytes at the reader's position, by its own place. *)
Lemma bytes_at_sub (r : Reader) (off len : Z) (b a : nat) :
  0 <= rpos r -> 0 <= off -> (b + a <= Z.to_nat len)%nat ->
  firstn a (skipn b (bytes_at r off len)) = bytes_at r (off + Z.of_nat b) (Z.of_nat a).
Proof.
  intros Hp Ho Hl. unfold bytes_at, slice.
  rewrite skipn_firstn_comm, firstn_firstn, skipn_skipn.
  rewrite Nat.min_l by lia.
  rewrite Nat2Z.id.
  replace (Z.to_nat (rpos r + (off + Z.of_nat b)))
    with (b + Z.to_nat (rpos r + off))%nat by lia.
  reflexivity.
Qed.

Lemma header_at_fields (r : Reader) (hdr : InfoStructHeader) :
  header_at r = Some hdr ->
  hdr = mkInfoHeader (bytes_at r 0 8) (le_uint (bytes_at r 8 2))
                     (le_uint (bytes_at r 10 2)).
Proof.
  unfold header_at. intros H.
  destruct (in_bounds r 12) eqn:B; [| discriminate].
  assert (E : fst (dec_InfoStructHeader (bytes_at r 0 12)) = hdr) by congruence.
  rewrite <- E. clear H E.
  apply in_bounds_inv in B. destruct B as (Hp & _ & _).
  cbv [dec_InfoStructHeader cbind cret take_bytes uint16 uint fst].
  rewrite skipn_skipn. cbn [Nat.add].
  rewrite <- (skipn_O (bytes_at r 0 12)) at 1.
  rewrite !bytes_at_sub by (try lia; apply Nat.leb_le; reflexivity).
  reflexivity.
Qed.

Lemma footer_at_fields (r : Reader) (size : Z) (v : ValidationHeader) :
  0 <= size -> footer_at r size = Some v ->
  v = mkValidation (le_uint (bytes_at r size 2))
                   (le_uint (bytes_at r (size + 2) 2))
                   (le_uint (bytes_at r (size + 4) 4)).
Proof.
  unfold footer_at. intros Hs H.
  destruct (in_bounds r (size + 8)) eqn:B; [| discriminate].
  assert (E : fst (dec_ValidationHeader (bytes_at r size 8)) = v) by congruence.
  rewrite <- E. clear H E.
  apply in_bounds_inv in B. destruct B as (Hp & _ & _).
  cbv [dec_ValidationHeader cbind cret uint16 uint32 uint fst].
  rewrite skipn_skipn. cbn [Nat.add].
  rewrite <- (skipn_O (bytes_at r size 8)) at 1.
  rewrite !bytes_at_sub by (try lia; apply Nat.leb_le; reflexivity).
  rewrite Z.add_0_r. reflexivity.
Qed.

(* ================================================================== *)
(** * The metadata block decoder *)

(** C8 (minimum size).  When the version-interpreted size of a block
    with the signature is below 64, [Read] fails with the size-too-small
    error; the reader stands just behind the 12-byte header, so nothing
    of the payload has been read, and the receiver is as it was. *)
Theorem size_too_small (s : InfoStruct) (r : Reader) (hdr : InfoStructHeader)
    (size : Z) :
  header_at r = Some hdr ->
  VerifySignature (ih_Signature hdr) = true ->
  version_size hdr = Some size ->
  size < 64 ->
  InfoStruct_Read s r
  = mkReadResult size (Some ErrSizeTooSmall) s (advance r 12).
Proof.
  intros Hh Hsig Hv Hlt.
  unfold InfoStruct_Read.
  rewrite (header_at_read r hdr Hh), Hsig. cbn [negb].
  rewrite Hv.
  destruct (Z.ltb_spec size 64); [reflexivity | lia].
Qed.

(** C3 (checksum gate).  For a candidate whose payload of [size] bytes
    and validation header can be read, the checksum is computed over the
    [size] bytes that start at the header (the first 12 of them are the
    header) and compared with the 32-bit value stored at bytes 4..7 of
    the validation header.  When they differ [Read] fails with the
    mismatch error that carries the stored and the computed value, and
    the receiver is as it was; when they agree [Read] succeeds. *)
Theorem checksum_gate (s : InfoStruct) (r : Reader) (hdr : InfoStructHeader)
    (size : Z) (v : ValidationHeader) :
  header_at r = Some hdr ->
  VerifySignature (ih_Signature hdr) = true ->
  version_size hdr = Some size ->
  64 <= size ->
  footer_at r size = Some v ->
  let buf := bytes_at r 0 size in
  Z.of_nat (length buf) = size
  /\ firstn 12 buf = bytes_at r 0 12
  /\ val_Crc32 v = le_uint (bytes_at r (size + 4) 4)
  /\ (ChecksumIEEE buf <> val_Crc32 v ->
      InfoStruct_Read s r
      = mkReadResult size
          (Some (ErrChecksumMismatch (val_Crc32 v) (ChecksumIEEE buf)))
          s (advance r (size + 8)))
  /\ (ChecksumIEEE buf = val_Crc32 v -> res_err (InfoStruct_Read s r) = None).
Proof.
  intros Hh Hsig Hv Hmin Hf buf.
  assert (B : in_bounds r (size + 8) = true).
  { unfold footer_at in Hf. destruct (in_bounds r (size + 8)); [reflexivity | discriminate]. }
  pose proof (in_bounds_inv r _ B) as (Hp & Hn & Hl).
  split.
  { apply bytes_at_length; try lia.
    apply (in_bounds_weaken r (size + 8)); [lia | exact B]. }
  split.
  { unfold buf. rewrite <- (skipn_O (bytes_at r 0 size)).
    rewrite bytes_at_sub by lia. reflexivity. }
  split.
  { rewrite (footer_at_fields r size v) at 1 by (try lia; exact Hf). reflexivity. }
  rewrite (InfoStruct_Read_block s r hdr size v Hh Hsig Hv Hmin Hf).
  fold buf. split; intros C.
  - destruct (Z.eqb_spec (ChecksumIEEE buf) (val_Crc32 v)); [contradiction | reflexivity].
  - rewrite C, Z.eqb_refl. reflexivity.
Qed.

(** C7 (successful decode).  When the checksum agrees, [Read] returns no
    error, the size it returns is the version-interpreted payload size
    plus the 16-bit value at bytes 0..1 of the validation header, and the
    receiver holds the fields of the payload, each the little-endian
    value of its bytes: signature at 0, size at 8, version at 10, four
    bytes skipped, volume size at 16, convert size at 24, header sectors
    at 28, the three offsets at 32, 40 and 48, the header-sectors offset
    at 56. *)
Theorem decode_success (s : InfoStruct) (r : Reader) (hdr : InfoStructHeader)
    (size : Z) (v : ValidationHeader) :
  header_at r = Some hdr ->
  VerifySignature (ih_Signature hdr) = true ->
  version_size hdr = Some size ->
  64 <= size ->
  footer_at r size = Some v ->
  ChecksumIEEE (bytes_at r 0 size) = val_Crc32 v ->
  let buf := bytes_at r 0 size in
  let res := InfoStruct_Read s r in
  res_err res = None
  /\ res_size res = size + val_Size v
  /\ val_Size v = le_uint (bytes_at r size 2)
  /\ res_info res
     = mkInfoStruct
         (mkInfoHeader (slice buf 0 8) (le_uint (slice buf 8 2))
                       (le_uint (slice buf 10 2)))
         (le_uint (slice buf 16 8))
         (le_uint (slice buf 24 4))
         (le_uint (slice buf 28 4))
         [le_uint (slice buf 32 8); le_uint (slice buf 40 8);
          le_uint (slice buf 48 8)]
         (le_uint (slice buf 56 8)).
Proof.
  intros Hh Hsig Hv Hmin Hf C buf res. unfold res.
  rewrite (InfoStruct_Read_block s r hdr size v Hh Hsig Hv Hmin Hf).
  rewrite C, Z.eqb_refl. cbn [res_err res_size res_info].
  split; [reflexivity |]. split; [reflexivity |]. split.
  - rewrite (footer_at_fields r size v) at 1 by (try lia; exact Hf). reflexivity.
  - apply dec_InfoStruct_fields.
Qed.

(** Every path of [Read] that sets [err] returns before the receiver is
    assigned. *)
Lemma Read_error_receiver (s : InfoStruct) (r : Reader) :
  res_err (InfoStruct_Read s r) <> None ->
  res_info (InfoStruct_Read s r) = s.
Proof.
  unfold InfoStruct_Read.
  destruct (binary_Read r size_InfoStructHeader dec_InfoStructHeader)
    as [r1 [e | hdr]]; [reflexivity |].
  destruct (negb (VerifySignature (ih_Signature hdr))); [reflexivity |].
  destruct (version_size hdr) as [size |]; [| reflexivity].
  destruct (size <? 64); [reflexivity |].
  destruct (ReadFull _ (Z.to_nat size)) as [r3 [e | buf]]; [reflexivity |].
  destruct (binary_Read r3 size_ValidationHeader dec_ValidationHeader)
    as [r4 [e | v]]; [reflexivity |].
  destruct (negb (ChecksumIEEE buf =? val_Crc32 v)); [reflexivity |].
  destruct (binary_Read (mkReader buf 0) size_InfoStruct dec_InfoStruct)
    as [r5 [e | s']]; [reflexivity |].
  cbn [res_err]. intros H. contradiction H. reflexivity.
Qed.

(** C10 (no partial update).  Whenever [Read] returns an error, be it
    for a short read, a bad signature, an unknown version, a size that
    is too small or a checksum mismatch, and whatever the source holds,
    the receiver is as it was before the call. *)
Theorem Read_error_keeps_receiver (s : InfoStruct) (r : Reader) :
  res_err (InfoStruct_Read s r) <> None ->
  res_info (InfoStruct_Read s r) = s.
Proof.
  intros H. destruct (InfoStruct_Read s r) as [size [e |] s' r'] eqn:E.
  - pose proof (Read_error_receiver s r) as K. rewrite E in K.
    apply K. discriminate.
  - contradiction H. reflexivity.
Qed.

Lemma size_too_small_witness :
  InfoStruct_Read zero_InfoStruct (mkReader Sample.small_block 0)
  = mkReadResult 32 (Some ErrSizeTooSmall) zero_InfoStruct
                 (mkReader Sample.small_block 12).
Proof.
  apply (size_too_small zero_InfoStruct (mkReader Sample.small_block 0)
                        (mkInfoHeader magic 32 1) 32);
    by_eval.
Defined.

Lemma checksum_gate_witness :
  InfoStruct_Read Sample.good_info (mkReader Sample.stale 0)
  = mkReadResult 64 (Some (ErrChecksumMismatch 3595706042 3595706043))
                 Sample.good_info (mkReader Sample.stale 72).
Proof.
  destruct (checksum_gate Sample.good_info (mkReader Sample.stale 0)
                          (mkInfoHeader magic 64 1) 64
                          (mkValidation 8 1 3595706042))
    as (_ & _ & _ & H & _); [by_eval | by_eval | by_eval | lia | by_eval |].
  refine (eq_trans (H _) _); [vm_compute; discriminate | by_eval].
Defined.

Lemma decode_success_witness :
  InfoStruct_Read zero_InfoStruct (mkReader Sample.good_block 0)
  = mkReadResult (64 + 8) None Sample.good_info (mkReader Sample.good_block 72).
Proof.
  destruct (decode_success zero_InfoStruct (mkReader Sample.good_block 0)
                           (mkInfoHeader magic 64 1) 64
                           (mkValidation 8 1 3595706043))
    as (E & S & _ & I); [by_eval | by_eval | by_eval | lia | by_eval | by_eval |].
  destruct (InfoStruct_Read zero_InfoStruct (mkReader Sample.good_block 0))
    as [size err s' r'] eqn:R.
  cbn [res_err res_size res_info] in E, S, I. subst size err.
  rewrite I. clear I.
  apply (f_equal res_reader) in R. cbn [res_reader] in R. subst r'.
  by_eval.
Defined.

Lemma Read_error_keeps_receiver_witness :
  res_info (InfoStruct_Read Sample.good_info (mkReader Sample.stale 0))
  = Sample.good_info.
Proof.
  apply Read_error_keeps_receiver. vm_compute. discriminate.
Defined.

(* ================================================================== *)
(** * Rounding up to the sector size *)

(** Clearing the low [k] bits. *)
Lemma land_lnot_pow2 (x k : Z) :
  0 <= k -> Z.land x (Z.lnot (2 ^ k - 1)) = 2 ^ k * (x / 2 ^ k).
Proof.
  intros Hk.
  rewrite <- Z.ldiff_land.
  replace (2 ^ k - 1) with (Z.ones k)
    by (rewrite Z.ones_equiv; apply Z.sub_1_r || reflexivity).
  rewrite Z.ldiff_ones_r by exact Hk.
  rewrite Z.shiftl_mul_pow2, Z.shiftr_div_pow2 by exact Hk.
  apply Z.mul_comm.
Qed.

(** Where no intermediate value leaves [int64], the expression of the
    source is the multiple of the sector size just below
    [infoSize + sectorSize]. *)
Lemma round_up_sector_pow2 (S k : Z) :
  0 <= S -> 0 <= k -> S + 2 ^ k < two63 ->
  round_up_sector S (2 ^ k) = 2 ^ k * ((S + 2 ^ k - 1) / 2 ^ k).
Proof.
  intros HS Hk Hov.
  assert (P0 : 0 < 2 ^ k) by (apply Z.pow_pos_nonneg; lia).
  unfold round_up_sector, add64, sub64, not64, and64.
  rewrite (wrap64_small (S + 2 ^ k)) by (unfold two63 in *; lia).
  rewrite (wrap64_small (S + 2 ^ k - 1)) by (unfold two63 in *; lia).
  rewrite (wrap64_small (2 ^ k - 1)) by (unfold two63 in *; lia).
  rewrite (wrap64_small (Z.lnot (2 ^ k - 1)))
    by (unfold Z.lnot, two63 in *; lia).
  rewrite land_lnot_pow2 by exact Hk.
  apply wrap64_small.
  pose proof (Z.div_mod (S + 2 ^ k - 1) (2 ^ k)) as D.
  pose proof (Z.mod_pos_bound (S + 2 ^ k - 1) (2 ^ k) P0) as M.
  unfold two63 in *. lia.
Qed.

(** C9 (size rounding).  For a size [S >= 0] and a power of two
    [P = 2^k] whose sum is an int64, the rounding expression of the
    source yields [R] with [R >= S], [R mod P = 0] and [R - S < P]. *)
Theorem round_up_sector_spec (S k : Z) :
  0 <= S -> 0 <= k -> S + 2 ^ k < two63 ->
  let P := 2 ^ k in
  let R := round_up_sector S P in
  R >= S /\ R mod P = 0 /\ R - S < P.
Proof.
  intros HS Hk Hov P R. unfold R, P.
  rewrite (round_up_sector_pow2 S k HS Hk Hov).
  assert (P0 : 0 < 2 ^ k) by (apply Z.pow_pos_nonneg; lia).
  pose proof (Z.div_mod (S + 2 ^ k - 1) (2 ^ k)) as D.
  pose proof (Z.mod_pos_bound (S + 2 ^ k - 1) (2 ^ k) P0) as M.
  split; [lia |]. split; [| lia].
  rewrite Z.mul_comm. apply Z.mod_mul. lia.
Qed.

Lemma round_up_sector_spec_witness :
  round_up_sector 72 512 >= 72
  /\ round_up_sector 72 512 mod 512 = 0
  /\ round_up_sector 72 512 - 72 < 512.
Proof.
  apply (round_up_sector_spec 72 9); vm_compute; congruence.
Defined.

(* ================================================================== *)
(** * Signature and GUID comparison *)

Lemma VerifySignature_magic (b : list byte) :
  VerifySignature b = true <-> b = magic.
Proof.
  unfold VerifySignature, magic. rewrite String.eqb_eq. split.
  - intros H. rewrite <- H. symmetry. apply list_byte_of_string_of_list_byte.
  - intros ->. apply string_of_list_byte_of_string.
Qed.

Lemma hex_digit_inj (a b : Z) :
  0 <= a < 16 -> 0 <= b < 16 -> hex_digit a = hex_digit b -> a = b.
Proof.
  intros Ha Hb.
  assert (Ea : a = 0 \/ a = 1 \/ a = 2 \/ a = 3 \/ a = 4 \/ a = 5 \/ a = 6
               \/ a = 7 \/ a = 8 \/ a = 9 \/ a = 10 \/ a = 11 \/ a = 12
               \/ a = 13 \/ a = 14 \/ a = 15) by lia.
  assert (Eb : b = 0 \/ b = 1 \/ b = 2 \/ b = 3 \/ b = 4 \/ b = 5 \/ b = 6
               \/ b = 7 \/ b = 8 \/ b = 9 \/ b = 10 \/ b = 11 \/ b = 12
               \/ b = 13 \/ b = 14 \/ b = 15) by lia.
  repeat (destruct Ea as [-> | Ea]);
    repeat (destruct Eb as [-> | Eb]); try subst a; try subst b;
    intros H; try reflexivity; vm_compute in H; discriminate H.
Qed.

Lemma hex_digits_length (w : nat) (v : Z) : String.length (hex_digits w v) = w.
Proof.
  induction w as [| w IH]; cbn [hex_digits String.length]; congruence.
Qed.

Lemma hex_digits_inj (w : nat) (a b : Z) :
  hex_digits w a = hex_digits w b ->
  a mod 16 ^ Z.of_nat w = b mod 16 ^ Z.of_nat w.
Proof.
  induction w as [| w IH]; intros H.
  - cbn. rewrite !Z.mod_1_r. reflexivity.
  - cbn [hex_digits] in H. injection H as Hd Hrest.
    apply IH in Hrest.
    apply hex_digit_inj in Hd; try (apply Z.mod_pos_bound; lia).
    assert (P : 0 < 16 ^ Z.of_nat w) by (apply Z.pow_pos_nonneg; lia).
    rewrite Nat2Z.inj_succ, Z.pow_succ_r by lia.
    rewrite (Z.mul_comm 16).
    rewrite !Z.rem_mul_r by lia.
    rewrite Hd, Hrest. reflexivity.
Qed.

Lemma hex_len_bound (w : nat) (v : Z) :
  (1 <= w)%nat -> 0 <= v < 16 ^ Z.of_nat w -> (hex_len v <= w)%nat.
Proof.
  intros Hw Hv. unfold hex_len.
  destruct (Z.eqb_spec v 0) as [-> | N]; [exact Hw |].
  assert (L : Z.log2 v < 4 * Z.of_nat w).
  { apply Z.log2_lt_pow2; [lia |].
    rewrite Z.pow_mul_r by lia. exact (proj2 Hv). }
  assert (D : Z.log2 v / 4 < Z.of_nat w).
  { apply Z.div_lt_upper_bound; lia. }
  pose proof (Z.log2_nonneg v).
  assert (0 <= Z.log2 v / 4) by (apply Z.div_pos; lia).
  lia.
Qed.

(** Within the range of its type a value takes exactly the padded
    width. *)
Lemma fmt_X_in_range (w : nat) (v : Z) :
  (1 <= w)%nat -> 0 <= v < 16 ^ Z.of_nat w -> fmt_X w v = hex_digits w v.
Proof.
  intros Hw Hv. unfold fmt_X.
  rewrite Nat.max_l by (apply hex_len_bound; assumption). reflexivity.
Qed.

Lemma fmt_X_inj (w : nat) (a b : Z) :
  (1 <= w)%nat -> 0 <= a < 16 ^ Z.of_nat w -> 0 <= b < 16 ^ Z.of_nat w ->
  fmt_X w a = fmt_X w b -> a = b.
Proof.
  intros Hw Ha Hb H.
  rewrite !fmt_X_in_range in H by assumption.
  apply hex_digits_inj in H.
  rewrite !Z.mod_small in H by assumption. exact H.
Qed.

Lemma fmt_X_length (w : nat) (v : Z) :
  (1 <= w)%nat -> 0 <= v < 16 ^ Z.of_nat w -> String.length (fmt_X w v) = w.
Proof.
  intros Hw Hv. rewrite fmt_X_in_range by assumption. apply hex_digits_length.
Qed.

Lemma append_inj (a b c d : string) :
  String.length a = String.length b ->
  (a ++ c)%string = (b ++ d)%string -> a = b /\ c = d.
Proof.
  revert b. induction a as [| x a IH]; intros [| y b] L H;
    cbn [String.length] in L; try discriminate L.
  - split; [reflexivity | exact H].
  - cbn [append] in H. injection H as -> H.
    injection L as L. destruct (IH b L H) as [-> ->]. split; reflexivity.
Qed.

Lemma byte_to_Z_inj (a b : byte) : byte_to_Z a = byte_to_Z b -> a = b.
Proof.
  unfold byte_to_Z. intros H. apply N2Z.inj in H.
  pose proof (Byte.of_to_N a) as Ea. pose proof (Byte.of_to_N b) as Eb.
  congruence.
Qed.

Lemma byte_at_range (bs : list byte) (i : nat) : 0 <= byte_at bs i < 16 ^ Z.of_nat 2.
Proof.
  unfold byte_at. pose proof (byte_to_Z_range (nth i bs x00)).
  change (16 ^ Z.of_nat 2) with 256. lia.
Qed.

Ltac field_range :=
  first [ assumption
        | apply byte_at_range
        | (cbv; split; [discriminate | reflexivity]) ].

(** Splits the leading field off an equation between two renderings. *)
Ltac split_field H Hf :=
  apply append_inj in H;
  [ destruct H as [Hf H];
    apply fmt_X_inj in Hf; [| apply Nat.leb_le; reflexivity | field_range ..]
  | rewrite !fmt_X_length by (first [apply Nat.leb_le; reflexivity | field_range]);
    reflexivity ].

Lemma dash_inj (a b : string) : ("-" ++ a = "-" ++ b)%string -> a = b.
Proof. cbn [append]. intros H. congruence. Qed.

Ltac skip_dash H := apply dash_inj in H.

(** The string comparison of [main] is the comparison of the identifier
    with the known one. *)
Lemma Guid_String_known (g : Guid) :
  wf_Guid g -> (Guid_String g = INFO_GUID <-> g = known_guid).
Proof.
  intros (RA & RB & RC & LD & LE). split; [| intros ->; by_eval].
  destruct g as [A B C D E]. cbn [guid_A guid_B guid_C guid_D guid_E] in *.
  destruct D as [| d0 [| d1 [| ? ?]]]; try discriminate LD.
  destruct E as [| e0 [| e1 [| e2 [| e3 [| e4 [| e5 [| ? ?]]]]]]];
    try discriminate LE.
  clear LD LE.
  assert (RA' : 0 <= A < 16 ^ Z.of_nat 8)
    by (change (16 ^ Z.of_nat 8) with (2 ^ 32); exact RA).
  assert (RB' : 0 <= B < 16 ^ Z.of_nat 4)
    by (change (16 ^ Z.of_nat 4) with (2 ^ 16); exact RB).
  assert (RC' : 0 <= C < 16 ^ Z.of_nat 4)
    by (change (16 ^ Z.of_nat 4) with (2 ^ 16); exact RC).
  intros H.
  change INFO_GUID with (Guid_String known_guid) in H.
  unfold Guid_String, known_guid in H.
  cbn [guid_A guid_B guid_C guid_D guid_E] in H.
  split_field H HA. skip_dash H.
  split_field H HB. skip_dash H.
  split_field H HC. skip_dash H.
  split_field H HD0. split_field H HD1. skip_dash H.
  split_field H HE0. split_field H HE1. split_field H HE2.
  split_field H HE3. split_field H HE4.
  apply fmt_X_inj in H; [| apply Nat.leb_le; reflexivity | field_range ..].
  unfold byte_at in *. cbn [nth] in *.
  apply byte_to_Z_inj in HD0, HD1, HE0, HE1, HE2, HE3, HE4, H.
  subst. reflexivity.
Qed.

(* ================================================================== *)
(** * The volume header *)

Lemma volume_header_at_wf (r : Reader) (hdr : VolumeHeader) :
  volume_header_at r = Some hdr ->
  wf_Guid (vh_Guid hdr) /\ 0 <= vh_SectorSize hdr < 65536.
Proof.
  unfold volume_header_at. intros H.
  destruct (in_bounds r 216) eqn:B; [| discriminate].
  assert (E : fst (dec_VolumeHeader (bytes_at r 0 216)) = hdr) by congruence.
  rewrite <- E. clear H E.
  assert (L : length (bytes_at r 0 216) = 216%nat).
  { pose proof (bytes_at_length r 0 216) as L.
    apply Nat2Z.inj. apply L; [lia | lia | exact B]. }
  generalize dependent (bytes_at r 0 216). intros X L.
  cbv [dec_VolumeHeader dec_Guid cbind cret take_bytes skip
       uint16 uint32 uint64 uint fst vh_Guid vh_SectorSize wf_Guid
       guid_A guid_B guid_C guid_D guid_E].
  rewrite !skipn_skipn. cbn [Nat.add].
  repeat split;
    try apply (le_uint_firstn_range 4);
    try apply (le_uint_firstn_range 2);
    rewrite length_firstn, length_skipn, L; reflexivity.
Qed.

Lemma File_Seek_reachable (env : Env) (f : Reader) (off : Z) :
  reachable env f off -> File_Seek env f off = mkReader (rdata f) off.
Proof.
  intros [R L]. unfold File_Seek.
  destruct (Z.leb_spec 0 off); [| lia].
  destruct (Z.ltb_spec off two63); [| lia].
  destruct (Z.leb_spec off (Z.of_nat (length (rdata f))));
    destruct (Z.leb_spec off (seek_max env)); try reflexivity; lia.
Qed.

(** A seek to a place within the file is never refused. *)
Lemma File_Seek_within (env : Env) (f : Reader) (off : Z) :
  0 <= off <= Z.of_nat (length (rdata f)) ->
  Z.of_nat (length (rdata f)) < two63 ->
  File_Seek env f off = mkReader (rdata f) off.
Proof.
  intros R L. apply File_Seek_reachable. split; [lia | left; lia].
Qed.

Lemma File_Seek_rdata (env : Env) (f : Reader) (off : Z) :
  rdata (File_Seek env f off) = rdata f.
Proof.
  unfold File_Seek. destruct (_ && _); reflexivity.
Qed.

(** [main] up to the decoded header. *)
Lemma main_after_header (env : Env) (fl : Flags) (bytes : list byte)
    (hdr : VolumeHeader) :
  NArg fl = 1%nat -> 0 <= offset fl ->
  volume_header_at (mkReader bytes (offset fl)) = Some hdr ->
  main env fl (Some bytes)
  = let w := mkWorld (advance (mkReader bytes (offset fl)) 216) [] 0 0 in
    match validate_header hdr with
    | Some bad => fatal bad w
    | None =>
      let w := print_offsets hdr w in
      let w := if verbose fl then emit (Stdout (MsgVolumeHeader hdr)) w else w in
      let (p, w) := probe_blocks env fl hdr w in
      if validInfoSize p =? 0 then fatal FatalNoMetadata w
      else if doWipe fl then
        match wipe env (offset fl) (eraseRegions hdr p) w with
        | (Some t, w) => (t, w)
        | (None, w) => (Exit 0, w)
        end
      else (Exit 0, w)
    end.
Proof.
  intros HN Hoff Hh. unfold volume_header_at in Hh.
  destruct (in_bounds (mkReader bytes (offset fl)) 216) eqn:B; [| discriminate].
  assert (E : fst (dec_VolumeHeader (bytes_at (mkReader bytes (offset fl)) 0 216)) = hdr)
    by congruence.
  pose proof (in_bounds_inv _ _ B) as (_ & Hn & Hl). cbn [rpos rdata] in Hn, Hl.
  unfold main. rewrite HN. cbn [Nat.eqb negb].
  destruct (Z.ltb_spec (offset fl) 0); [lia |].
  unfold with_file at 1 2. cbn [w_file w_log w_rand w_write].
  rewrite File_Seek_within by (cbn [rdata]; lia). cbn [rdata].
  rewrite (binary_Read_in_bounds _ size_VolumeHeader _ B).
  change (Z.of_nat size_VolumeHeader) with 216. rewrite E.
  reflexivity.
Qed.

(** C2 (header validation), as the source has it.  A decoded volume
    header is accepted exactly when its signature is the magic, its
    sector size is at least 512 and its GUID is the known identifier;
    the source has no test that the sector size is a power of two.  When
    a check fails the run ends at once with status 1: the diagnostic is
    its only output, no candidate is probed and nothing is written. *)
Theorem header_validation (env : Env) (fl : Flags) (bytes : list byte)
    (hdr : VolumeHeader) :
  NArg fl = 1%nat -> 0 <= offset fl ->
  volume_header_at (mkReader bytes (offset fl)) = Some hdr ->
  (validate_header hdr = None
   <-> vh_Signature hdr = magic /\ 512 <= vh_SectorSize hdr
       /\ vh_Guid hdr = known_guid)
  /\ (forall bad, validate_header hdr = Some bad ->
      main env fl (Some bytes)
      = (Exit 1,
         mkWorld (advance (mkReader bytes (offset fl)) 216)
                 [Stderr (fatal_line (fatal_format bad)) bad] 0 0)).
Proof.
  intros HN Hoff Hh.
  pose proof (volume_header_at_wf _ _ Hh) as [WF _].
  split.
  - unfold validate_header.
    destruct (VerifySignature (vh_Signature hdr)) eqn:S; cbn [negb].
    + apply VerifySignature_magic in S.
      destruct (Z.ltb_spec (vh_SectorSize hdr) 512) as [L | L].
      * split; [discriminate | lia].
      * destruct (String.eqb_spec (Guid_String (vh_Guid hdr)) INFO_GUID) as [G | G];
          cbn [negb].
        -- apply (Guid_String_known _ WF) in G. tauto.
        -- split; [discriminate |]. intros (_ & _ & K).
           apply (Guid_String_known _ WF) in K. contradiction.
    + split; [discriminate |]. intros (M & _).
      apply VerifySignature_magic in M. congruence.
  - intros bad Hbad.
    rewrite (main_after_header env fl bytes hdr HN Hoff Hh).
    cbv zeta. rewrite Hbad. reflexivity.
Qed.

Lemma header_validation_witness :
  main Sample.env (Sample.flags true) (Some Sample.image_256)
  = (Exit 1,
     mkWorld (mkReader Sample.image_256 216)
             [Stderr ("weird sector size: %d" ++ newline) (FatalSectorSize 256)] 0 0).
Proof.
  destruct (header_validation Sample.env (Sample.flags true) Sample.image_256
                              (Sample.header 256 Sample.offsets))
    as [_ H]; [reflexivity | vm_compute; discriminate | by_eval |].
  refine (eq_trans (H (FatalSectorSize 256) _) _); by_eval.
Defined.

(** C2, the claim as it is worded: a sector size of 768 is at least 512
    and is not a power of two, and the header that carries it is
    accepted; the run goes on to probe the candidates and ends with
    status 0. *)
Lemma header_validation_counterexample :
  volume_header_at (mkReader Sample.image_768 0)
  = Some (Sample.header 768 [768; 1536; 2304])
  /\ ~ is_power_of_two (vh_SectorSize (Sample.header 768 [768; 1536; 2304]))
  /\ validate_header (Sample.header 768 [768; 1536; 2304]) = None
  /\ fst (main Sample.env (Sample.flags false) (Some Sample.image_768)) = Exit 0.
Proof.
  split; [by_eval |]. split; [| split; by_eval].
  cbn [Sample.header vh_SectorSize]. intros (k & Hk & E).
  destruct (Z.le_gt_cases k 9) as [L | G].
  - assert (2 ^ k <= 2 ^ 9) by (apply Z.pow_le_mono_r; lia).
    change (2 ^ 9) with 512 in *. lia.
  - assert (2 ^ 10 <= 2 ^ k) by (apply Z.pow_le_mono_r; lia).
    change (2 ^ 10) with 1024 in *. lia.
Qed.

(* ================================================================== *)
(** * The wipe executor *)

Lemma writes_app (l1 l2 : list Event) : writes (l1 ++ l2) = writes l1 ++ writes l2.
Proof. apply flat_map_app. Qed.

Lemma reported_app (l1 l2 : list Event) :
  reported (l1 ++ l2) = (reported l1 + reported l2)%nat.
Proof. unfold reported. rewrite filter_app, length_app. reflexivity. Qed.

Lemma add64_small (a b : Z) : 0 <= a + b < two63 -> add64 a b = a + b.
Proof. intros H. unfold add64. apply wrap64_small. unfold two63 in *. lia. Qed.

(** Where the file stands after [f.Seek(base+off, 0)]: at [base + off]
    when the file can be brought there. *)
Lemma Seek_region (env : Env) (f : Reader) (base off : Z) :
  reachable env f (base + off) ->
  rpos (File_Seek env f (add64 base off)) = base + off.
Proof.
  intros H. rewrite (add64_small _ _ (proj1 H)), (File_Seek_reachable _ _ _ H).
  reflexivity.
Qed.

(** A write never shortens the file. *)
Lemma store_length (f : Reader) (buf : list byte) :
  (length (rdata f) <= length (rdata (store f buf)))%nat.
Proof.
  unfold store. destruct buf as [| b buf]; [lia |].
  cbn [rdata]. rewrite !length_app, length_firstn, length_skipn, !length_app,
    repeat_length.
  lia.
Qed.

Lemma reachable_longer (env : Env) (f f' : Reader) (target : Z) :
  (length (rdata f) <= length (rdata f'))%nat ->
  reachable env f target -> reachable env f' target.
Proof.
  intros L [R [H | H]]; split; try exact R; [left; lia | right; exact H].
Qed.

(** One region for which random bytes are to be had: what is logged and
    what becomes of the file. *)
Lemma wipe_region_full (env : Env) (base : Z) (r : RegionDesc)
    (rest : list RegionDesc) (w : World) (g : nat -> byte) :
  0 <= Size r ->
  rand_source env (w_rand w) = Some g ->
  exists w' written,
    wipe env base (r :: rest) w = wipe env base rest w'
    /\ w_rand w' = S (w_rand w) /\ w_write w' = S (w_write w)
    /\ w_log w'
       = w_log w
         ++ [RandRead (Z.to_nat (Size r)) true;
             Stdout (MsgOverwriting (Name r) (Offset r) (Size r));
             FileWrite (rpos (File_Seek env (w_file w) (add64 base (Offset r))))
                       (map g (seq 0 (Z.to_nat (Size r))))
                       (write_fault env (w_write w))]
         ++ match write_fault env (w_write w) with
            | Some _ => [Stdout MsgUnableToWrite]
            | None => []
            end
    /\ w_file w' = store (File_Seek env (w_file w) (add64 base (Offset r))) written
    /\ Z.of_nat (length written) <= Size r.
Proof.
  intros Hs Hr.
  cbn [wipe]. destruct (Z.ltb_spec (Size r) 0); [lia |].
  unfold rand_Read. rewrite Hr.
  unfold file_Write, with_file, emit. cbn [w_file w_log w_rand w_write].
  assert (Lb : Z.of_nat (length (map g (seq 0 (Z.to_nat (Size r))))) = Size r)
    by (rewrite length_map, length_seq; lia).
  destruct (write_fault env (w_write w)) as [n |].
  - eexists. eexists. split; [reflexivity |]. cbn [w_rand w_write w_log w_file].
    split; [reflexivity |]. split; [reflexivity |].
    split; [rewrite <- !app_assoc; reflexivity |].
    split; [reflexivity |].
    pose proof (firstn_le_length
                  (Nat.min n (length (map g (seq 0 (Z.to_nat (Size r)))) - 1))
                  (map g (seq 0 (Z.to_nat (Size r))))).
    lia.
  - eexists. eexists. split; [reflexivity |]. cbn [w_rand w_write w_log w_file].
    split; [reflexivity |]. split; [reflexivity |].
    split; [rewrite <- !app_assoc; reflexivity |].
    split; [reflexivity |]. lia.
Qed.

Lemma wipe_region (env : Env) (base : Z) (r : RegionDesc)
    (rest : list RegionDesc) (w : World) (g : nat -> byte) :
  0 <= Size r ->
  rand_source env (w_rand w) = Some g ->
  exists w',
    wipe env base (r :: rest) w = wipe env base rest w'
    /\ w_rand w' = S (w_rand w) /\ w_write w' = S (w_write w)
    /\ w_log w'
       = w_log w
         ++ [RandRead (Z.to_nat (Size r)) true;
             Stdout (MsgOverwriting (Name r) (Offset r) (Size r));
             FileWrite (rpos (File_Seek env (w_file w) (add64 base (Offset r))))
                       (map g (seq 0 (Z.to_nat (Size r))))
                       (write_fault env (w_write w))]
         ++ match write_fault env (w_write w) with
            | Some _ => [Stdout MsgUnableToWrite]
            | None => []
            end.
Proof.
  intros Hs Hr.
  destruct (wipe_region_full env base r rest w g Hs Hr)
    as (w' & written & Ew & Er & Eww & El & _).
  exists w'. repeat split; assumption.
Qed.

(** A region for which [rand.Read] fails. *)
Lemma wipe_no_entropy (env : Env) (base : Z) (r : RegionDesc)
    (rest : list RegionDesc) (w : World) :
  0 <= Size r -> rand_source env (w_rand w) = None ->
  fst (wipe env base (r :: rest) w) = Some (Exit 1)
  /\ w_log (snd (wipe env base (r :: rest) w))
     = w_log w ++ [RandRead (Z.to_nat (Size r)) false;
                   Stderr (fatal_line (fatal_format FatalRand)) FatalRand].
Proof.
  intros Hs Hr.
  cbn [wipe]. destruct (Z.ltb_spec (Size r) 0); [lia |].
  unfold rand_Read. rewrite Hr.
  unfold fatal, emit. cbn [fst snd w_log].
  split; [reflexivity |]. rewrite <- app_assoc. reflexivity.
Qed.

Lemma rand_buffer_length (env : Env) (k : nat) (n : Z) (g : nat -> byte) :
  0 <= n -> rand_source env k = Some g ->
  Z.of_nat (length (rand_buffer env k n)) = n.
Proof.
  intros Hn Hk. unfold rand_buffer. rewrite Hk.
  rewrite length_map, length_seq. lia.
Qed.

(** C5 (wipe executor), as the source has it.  Let the regions have
    lengths that are not negative, and let [k] be the number of regions
    reached before [rand.Read] first fails.  Then the executor writes
    exactly once for each of the first [k] regions, in list order: the
    buffer is the one its own call of [rand.Read] filled and it is
    exactly as long as the region.  The file stands at [base] plus the
    region's offset whenever it can be brought there, that is, when the
    sum is not negative and lies within the file or within what the file
    system or device lets it seek to; the source does not look at the
    result of [Seek].  Failed writes do not stop the executor: each is
    reported once and the next region follows.  When [rand.Read] fails,
    the executor ends the run with status 1 after the diagnostic and the
    remaining regions are not written; otherwise it runs to the end of
    the list. *)
Theorem wipe_in_order (env : Env) (base : Z) (regions : list RegionDesc)
    (w : World) :
  Forall (fun r => 0 <= Size r) regions ->
  let k := available env (w_rand w) (length regions) in
  exists new,
    w_log (snd (wipe env base regions w)) = w_log w ++ new
    /\ Forall2 (fun jr pb =>
                  (reachable env (w_file w) (base + Offset (snd jr)) ->
                   fst pb = base + Offset (snd jr))
                  /\ snd pb = rand_buffer env (fst jr) (Size (snd jr))
                  /\ Z.of_nat (length (snd pb)) = Size (snd jr))
               (combine (seq (w_rand w) k) regions) (writes new)
    /\ reported new = faults env (w_write w) k
    /\ (k = length regions -> fst (wipe env base regions w) = None)
    /\ ((k < length regions)%nat ->
        fst (wipe env base regions w) = Some (Exit 1)
        /\ exists before,
             new = before ++ [Stderr (fatal_line (fatal_format FatalRand)) FatalRand]).
Proof.
  intros Hall. revert w.
  induction Hall as [| r rest Hs Hrest IH]; intros w k.
  - exists []. cbn [wipe snd fst]. rewrite app_nil_r.
    split; [reflexivity |]. split; [constructor |]. split; [reflexivity |].
    split; [reflexivity |]. cbn. lia.
  - unfold k. cbn [length available].
    destruct (rand_source env (w_rand w)) as [g |] eqn:Hr.
    + destruct (wipe_region_full env base r rest w g Hs Hr)
        as (w' & written & Ew & Er & Eww & El & Ef & _).
      rewrite Ew.
      destruct (IH w') as (new & Hlog & Hwr & Hrep & Hend & Hfail).
      rewrite Er in Hwr, Hrep, Hend, Hfail. rewrite Eww in Hrep.
      assert (Longer : (length (rdata (w_file w)) <= length (rdata (w_file w')))%nat).
      { rewrite Ef. eapply Nat.le_trans; [| apply store_length].
        rewrite File_Seek_rdata. lia. }
      eexists. split; [rewrite Hlog, El, <- !app_assoc; reflexivity |].
      split; [| split; [| split]].
      * rewrite !writes_app. cbn [seq combine].
        change (writes [RandRead (Z.to_nat (Size r)) true;
                        Stdout (MsgOverwriting (Name r) (Offset r) (Size r));
                        FileWrite (rpos (File_Seek env (w_file w)
                                                   (add64 base (Offset r))))
                                  (map g (seq 0 (Z.to_nat (Size r))))
                                  (write_fault env (w_write w))])
          with [(rpos (File_Seek env (w_file w) (add64 base (Offset r))),
                 map g (seq 0 (Z.to_nat (Size r))))].
        replace (writes match write_fault env (w_write w) with
                        | Some _ => [Stdout MsgUnableToWrite]
                        | None => []
                        end) with (@nil (Z * list byte))
          by (destruct (write_fault env (w_write w)); reflexivity).
        cbn [app]. constructor.
        -- cbn [fst snd]. split; [apply Seek_region |].
           split; [unfold rand_buffer; rewrite Hr; reflexivity |].
           rewrite length_map, length_seq. lia.
        -- eapply Forall2_impl; [| exact Hwr].
           intros jr pb (Hp & Hb & Hl). split; [| split; assumption].
           intros Hreach. apply Hp.
           apply (reachable_longer env (w_file w) (w_file w') _ Longer Hreach).
      * rewrite !reported_app, Hrep. unfold faults. cbn [seq filter].
        destruct (write_fault env (w_write w)); reflexivity.
      * intros E. apply Hend. lia.
      * intros L. destruct Hfail as (Hex & before & Hnew); [lia |].
        split; [exact Hex |].
        eexists. rewrite Hnew, !app_assoc. reflexivity.
    + destruct (wipe_no_entropy env base r rest w Hs Hr) as [Hex Hlog].
      eexists. split; [exact Hlog |].
      split; [constructor |]. split; [reflexivity |].
      split; [intros E; discriminate E |].
      intros _. split; [exact Hex |].
      exists [RandRead (Z.to_nat (Size r)) false]. reflexivity.
Qed.

(** The source does not look at the result of [f.Seek]: where [base]
    plus the offset is not a file position the seek is refused and the
    buffer goes where the file stands, here behind the first write. *)
Example wipe_refused_seek :
  extents (w_log (snd (wipe Sample.env 0
                            [ mkRegion "volume header" 0 4;
                              mkRegion "metadata block 0" (-1) 2 ]
                            Sample.world)))
  = [(0, 4); (4, 2)].
Proof. by_eval. Qed.

(** The same for an offset behind what the file system lets the file
    seek to. *)
Example wipe_beyond_limit :
  extents (w_log (snd (wipe Sample.env 0
                            [ mkRegion "volume header" 0 4;
                              mkRegion "metadata block 0" (2 ^ 45) 2 ]
                            Sample.world)))
  = [(0, 4); (4, 2)].
Proof. by_eval. Qed.

(** C5, the claim as it is worded: on a volume whose valid candidates
    record [0xffffffffffffffff] as their first offset, the run plans
    the region "metadata block 0" at offset -1, and its 72 random bytes
    are written at 512, where the write of the header left the file,
    and not at the base offset plus the region's offset. *)
Lemma wipe_in_order_counterexample :
  announced (w_log (snd (main Sample.env (Sample.flags true)
                              (Some Sample.image_far))))
  = [ mkRegion "volume header" 0 512;
      mkRegion "metadata block 0" (-1) 72;
      mkRegion "metadata block 1" 1024 72;
      mkRegion "metadata block 2" 1536 72 ]
  /\ extents (w_log (snd (main Sample.env (Sample.flags true)
                               (Some Sample.image_far))))
     = [(0, 512); (512, 72); (1024, 72); (1536, 72)]
  /\ 512 <> offset (Sample.flags true) + -1.
Proof.
  split; [by_eval |]. split; [by_eval |]. vm_compute. discriminate.
Qed.

Lemma wipe_in_order_witness :
  exists new,
    w_log (snd (wipe Sample.faulty_env 0 Sample.regions Sample.world)) = new
    /\ map fst (writes new) = [0; 512]
    /\ reported new = 1%nat
    /\ fst (wipe Sample.faulty_env 0 Sample.regions Sample.world) = Some (Exit 1).
Proof.
  destruct (wipe_in_order Sample.faulty_env 0 Sample.regions Sample.world)
    as (new & Hlog & Hwr & Hrep & _ & Hfail).
  - repeat constructor; vm_compute; discriminate.
  - exists new. split; [exact Hlog |].
    split.
    + vm_compute in Hlog. rewrite <- Hlog. reflexivity.
    + split; [exact Hrep |]. apply Hfail. vm_compute. repeat constructor.
Defined.

(* ================================================================== *)
(** * Probing the three candidates *)

Lemma reads_only_refl (w : World) : reads_only w w.
Proof.
  repeat split. exists []. rewrite app_nil_r. split; reflexivity.
Qed.

Lemma reads_only_trans (w1 w2 w3 : World) :
  reads_only w1 w2 -> reads_only w2 w3 -> reads_only w1 w3.
Proof.
  intros (D1 & R1 & W1 & n1 & L1 & Q1) (D2 & R2 & W2 & n2 & L2 & Q2).
  repeat split; try congruence.
  exists (n1 ++ n2). split.
  - rewrite L2, L1, app_assoc. reflexivity.
  - rewrite forallb_app, Q1, Q2. reflexivity.
Qed.

Lemma reads_only_emit (w : World) (e : Event) :
  quiet e = true -> reads_only w (emit e w).
Proof.
  intros Q. repeat split. exists [e]. split; [reflexivity |].
  cbn [forallb]. rewrite Q. reflexivity.
Qed.

Lemma quiet_log (log : list Event) :
  forallb quiet log = true ->
  writes log = [] /\ announced log = [] /\ filter is_rand log = [].
Proof.
  induction log as [| e log IH]; [intros _; repeat split |].
  cbn [forallb]. rewrite andb_true_iff. intros [Q H].
  destruct (IH H) as (W & A & R).
  unfold writes, announced in *. cbn [flat_map filter].
  rewrite W, A, R.
  destruct e as [[] | | | |]; try discriminate Q; repeat split.
Qed.

Lemma ReadFull_rdata (r : Reader) (n : nat) : rdata (fst (ReadFull r n)) = rdata r.
Proof.
  unfold ReadFull.
  destruct (Nat.eqb n 0); [reflexivity |].
  destruct (Nat.eqb _ 0); [reflexivity |].
  destruct (Nat.ltb _ n); reflexivity.
Qed.

Lemma binary_Read_rdata {A} (r : Reader) (n : nat) (dec : Cursor A) :
  rdata (fst (binary_Read r n dec)) = rdata r.
Proof.
  unfold binary_Read. pose proof (ReadFull_rdata r n) as H.
  destruct (ReadFull r n) as [r' [e | bs]]; exact H.
Qed.

Lemma Seek_rdata (r : Reader) (off : Z) (wh : Whence) :
  rdata (Seek r off wh) = rdata r.
Proof.
  unfold Seek. destruct ((0 <=? _) && (_ <? two63)); reflexivity.
Qed.

(** [Read] does not change the bytes of its source. *)
Lemma InfoStruct_Read_rdata (s : InfoStruct) (r : Reader) :
  rdata (res_reader (InfoStruct_Read s r)) = rdata r.
Proof.
  unfold InfoStruct_Read.
  pose proof (binary_Read_rdata r size_InfoStructHeader dec_InfoStructHeader) as H1.
  destruct (binary_Read r size_InfoStructHeader dec_InfoStructHeader)
    as [r1 [e | hdr]]; cbn [fst] in H1; [exact H1 |].
  destruct (negb (VerifySignature (ih_Signature hdr))); [exact H1 |].
  destruct (version_size hdr) as [size |]; [| exact H1].
  destruct (size <? 64); [exact H1 |].
  pose proof (ReadFull_rdata (Seek r1 (- Z.of_nat size_InfoStructHeader) SeekCurrent)
                             (Z.to_nat size)) as H3.
  rewrite Seek_rdata, H1 in H3.
  destruct (ReadFull _ (Z.to_nat size)) as [r3 [e | buf]]; cbn [fst] in H3;
    [exact H3 |].
  pose proof (binary_Read_rdata r3 size_ValidationHeader dec_ValidationHeader) as H4.
  rewrite H3 in H4.
  destruct (binary_Read r3 size_ValidationHeader dec_ValidationHeader)
    as [r4 [e | v]]; cbn [fst] in H4; [exact H4 |].
  destruct (negb (ChecksumIEEE buf =? val_Crc32 v)); [exact H4 |].
  destruct (binary_Read (mkReader buf 0) size_InfoStruct dec_InfoStruct)
    as [r5 [e | s']]; exact H4.
Qed.

Lemma probe_block_reads_only (env : Env) (fl : Flags) (hdr : VolumeHeader) (p : Probe)
    (w : World) (i : nat) :
  reads_only w (snd (probe_block env fl hdr (p, w) i)).
Proof.
  unfold probe_block.
  set (res := InfoStruct_Read (info p) _).
  assert (F : reads_only w (with_file (res_reader res) w)).
  { repeat split.
    - unfold with_file, res. cbn [w_file].
      rewrite InfoStruct_Read_rdata. apply File_Seek_rdata.
    - exists []. rewrite app_nil_r. split; reflexivity. }
  destruct (res_err res) as [e |]; cbn [snd].
  - eapply reads_only_trans; [exact F |]. apply reads_only_emit. reflexivity.
  - eapply reads_only_trans; [exact F |].
    destruct (verbose fl);
      (eapply reads_only_trans; [| apply reads_only_emit; reflexivity]);
      apply reads_only_emit; reflexivity.
Qed.

Lemma probe_fold_reads_only (env : Env) (fl : Flags) (hdr : VolumeHeader)
    (candidates : list nat) (p : Probe) (w : World) :
  reads_only w (snd (fold_left (probe_block env fl hdr) candidates (p, w))).
Proof.
  revert p w. induction candidates as [| i rest IH]; intros p w.
  - apply reads_only_refl.
  - cbn [fold_left].
    pose proof (probe_block_reads_only env fl hdr p w i) as H.
    destruct (probe_block env fl hdr (p, w) i) as [p' w'].
    eapply reads_only_trans; [exact H | apply IH].
Qed.

Lemma print_offsets_reads_only (hdr : VolumeHeader) (w : World) :
  reads_only w (print_offsets hdr w) /\ w_file (print_offsets hdr w) = w_file w.
Proof.
  unfold print_offsets. cbn [seq fold_left]. split; [| reflexivity].
  eapply reads_only_trans; [| apply reads_only_emit; reflexivity].
  eapply reads_only_trans; [| apply reads_only_emit; reflexivity].
  apply reads_only_emit; reflexivity.
Qed.

(** A candidate that does not validate leaves the variables of the loop
    as they were. *)
Lemma probe_block_failed (env : Env) (fl : Flags) (hdr : VolumeHeader) (p : Probe)
    (w : World) (i : nat) :
  let res := InfoStruct_Read (info p) (candidate env fl hdr (w_file w) i) in
  res_err res <> None ->
  fst (probe_block env fl hdr (p, w) i) = p
  /\ w_file (snd (probe_block env fl hdr (p, w) i)) = res_reader res.
Proof.
  intros res Herr.
  pose proof (Read_error_receiver _ _ Herr) as Hs.
  unfold probe_block. fold (candidate env fl hdr (w_file w) i). fold res.
  destruct (res_err res) as [e |]; [| contradiction Herr; reflexivity].
  cbn [fst snd]. fold res in Hs. rewrite Hs.
  destruct p; split; reflexivity.
Qed.

Lemma probe_all_failed (env : Env) (fl : Flags) (hdr : VolumeHeader)
    (candidates : list nat) (p : Probe) (w : World) :
  Forall (fun res => res_err res <> None)
         (replay env fl hdr (info p) (w_file w) candidates) ->
  fst (fold_left (probe_block env fl hdr) candidates (p, w)) = p.
Proof.
  revert p w. induction candidates as [| i rest IH]; intros p w H.
  - reflexivity.
  - cbn [replay] in H. inversion H as [| res rs Hres Hrest]; subst.
    destruct (probe_block_failed env fl hdr p w i Hres) as [Ep Ef].
    pose proof (Read_error_receiver _ _ Hres) as Hs.
    cbn [fold_left].
    destruct (probe_block env fl hdr (p, w) i) as [p' w'].
    cbn [fst snd] in Ep, Ef. subst p'.
    apply IH. rewrite Ef. rewrite Hs in Hrest. exact Hrest.
Qed.

(** C6 (no valid block).  When the header is accepted and none of the
    three calls of [Read] succeeds, the run ends with status 1, its
    last output is the diagnostic [invalid or no metadata blocks found!]
    on the error stream, no region is announced, [rand.Read] and
    [f.Write] are never called and the bytes of the file are as they
    were, whether or not a wipe was requested. *)
Theorem no_valid_block (env : Env) (fl : Flags) (bytes : list byte)
    (hdr : VolumeHeader) :
  NArg fl = 1%nat -> 0 <= offset fl ->
  volume_header_at (mkReader bytes (offset fl)) = Some hdr ->
  validate_header hdr = None ->
  Forall (fun res => res_err res <> None)
         (replay env fl hdr zero_InfoStruct
                 (advance (mkReader bytes (offset fl)) 216) (seq 0 3)) ->
  let t := fst (main env fl (Some bytes)) in
  let w := snd (main env fl (Some bytes)) in
  t = Exit 1
  /\ (exists before,
        w_log w = before ++ [Stderr ("invalid or no metadata blocks found!" ++ newline)
                                    FatalNoMetadata])
  /\ announced (w_log w) = []
  /\ writes (w_log w) = []
  /\ filter is_rand (w_log w) = []
  /\ w_rand w = 0%nat /\ w_write w = 0%nat
  /\ rdata (w_file w) = bytes.
Proof.
  intros HN Hoff Hh Hv Hall t w. unfold t, w. clear t w.
  rewrite (main_after_header env fl bytes hdr HN Hoff Hh).
  cbv zeta. rewrite Hv.
  set (w0 := mkWorld (advance (mkReader bytes (offset fl)) 216) [] 0 0).
  set (w1 := if verbose fl
             then emit (Stdout (MsgVolumeHeader hdr)) (print_offsets hdr w0)
             else print_offsets hdr w0).
  assert (F1 : w_file w1 = advance (mkReader bytes (offset fl)) 216).
  { unfold w1. destruct (verbose fl); reflexivity. }
  assert (R1 : reads_only w0 w1).
  { unfold w1. destruct (print_offsets_reads_only hdr w0) as [R _].
    destruct (verbose fl); [| exact R].
    eapply reads_only_trans; [exact R | apply reads_only_emit; reflexivity]. }
  pose proof (probe_fold_reads_only env fl hdr (seq 0 3) zero_Probe w1) as R2.
  pose proof (probe_all_failed env fl hdr (seq 0 3) zero_Probe w1) as P.
  rewrite F1 in P. specialize (P Hall).
  unfold probe_blocks.
  destruct (fold_left (probe_block env fl hdr) (seq 0 3) (zero_Probe, w1)) as [p w2].
  cbn [fst snd] in P, R2. subst p.
  cbn [validInfoSize zero_Probe Z.eqb]. unfold fatal. cbn [fst snd].
  destruct (reads_only_trans _ _ _ R1 R2) as (D & Rn & Wn & new & L & Q).
  cbn [w_log w_file w_rand w_write w0 rdata advance] in D, Rn, Wn, L.
  unfold emit. cbn [w_log w_file w_rand w_write].
  assert (Q' : forallb quiet
                 (new ++ [Stderr (fatal_line (fatal_format FatalNoMetadata))
                                 FatalNoMetadata]) = true).
  { rewrite forallb_app, Q. reflexivity. }
  destruct (quiet_log _ Q') as (W & A & R).
  rewrite L. cbn [app].
  split; [reflexivity |].
  split; [exists new; reflexivity |].
  repeat split; assumption.
Qed.

Lemma no_valid_block_witness :
  fst (main Sample.env (Sample.flags true) (Some Sample.image_none)) = Exit 1
  /\ (exists before,
        w_log (snd (main Sample.env (Sample.flags true) (Some Sample.image_none)))
        = before ++ [Stderr ("invalid or no metadata blocks found!" ++ newline)
                            FatalNoMetadata])
  /\ announced (w_log (snd (main Sample.env (Sample.flags true)
                                 (Some Sample.image_none)))) = []
  /\ writes (w_log (snd (main Sample.env (Sample.flags true)
                              (Some Sample.image_none)))) = []
  /\ filter is_rand (w_log (snd (main Sample.env (Sample.flags true)
                                      (Some Sample.image_none)))) = []
  /\ w_rand (snd (main Sample.env (Sample.flags true) (Some Sample.image_none)))
     = 0%nat
  /\ w_write (snd (main Sample.env (Sample.flags true) (Some Sample.image_none)))
     = 0%nat
  /\ rdata (w_file (snd (main Sample.env (Sample.flags true)
                              (Some Sample.image_none))))
     = Sample.image_none.
Proof.
  apply (no_valid_block Sample.env (Sample.flags true) Sample.image_none
                        (Sample.header 512 Sample.offsets)).
  - reflexivity.
  - vm_compute. discriminate.
  - by_eval.
  - by_eval.
  - vm_compute. repeat constructor; discriminate.
Defined.

(* ================================================================== *)
(** * The erase plan *)

Lemma probe_block_valid (env : Env) (fl : Flags) (hdr : VolumeHeader) (p : Probe)
    (w : World) (i : nat) :
  let res := InfoStruct_Read (info p) (candidate env fl hdr (w_file w) i) in
  res_err res = None ->
  fst (probe_block env fl hdr (p, w) i) = recorded res
  /\ w_file (snd (probe_block env fl hdr (p, w) i)) = res_reader res.
Proof.
  intros res Hok.
  unfold probe_block. fold (candidate env fl hdr (w_file w) i). fold res.
  rewrite Hok. cbn [fst snd].
  split; [reflexivity |]. destruct (verbose fl); reflexivity.
Qed.

(** After the loop the variables hold what the last valid candidate
    gave: its size as [Read] returned it, and its three offsets. *)
Lemma probe_last_valid (env : Env) (fl : Flags) (hdr : VolumeHeader)
    (candidates : list nat) (p : Probe) (w : World) :
  fst (fold_left (probe_block env fl hdr) candidates (p, w))
  = match last_valid (replay env fl hdr (info p) (w_file w) candidates) with
    | Some res => recorded res
    | None => p
    end.
Proof.
  revert p w. induction candidates as [| i rest IH]; intros p w.
  - reflexivity.
  - cbn [fold_left replay last_valid].
    set (res := InfoStruct_Read (info p) (candidate env fl hdr (w_file w) i)).
    destruct (res_err res) as [e |] eqn:E.
    + assert (Herr : res_err res <> None) by (rewrite E; discriminate).
      destruct (probe_block_failed env fl hdr p w i Herr) as [Ep Ef].
      pose proof (Read_error_receiver _ _ Herr) as Hs. fold res in Hs.
      destruct (probe_block env fl hdr (p, w) i) as [p' w'].
      cbn [fst snd] in Ep, Ef. subst p'.
      rewrite IH, Ef, Hs. fold res.
      destruct (last_valid _); reflexivity.
    + destruct (probe_block_valid env fl hdr p w i E) as [Ep Ef].
      destruct (probe_block env fl hdr (p, w) i) as [p' w'].
      cbn [fst snd] in Ep, Ef. subst p'.
      rewrite IH, Ef. cbn [recorded info]. fold res.
      destruct (last_valid _); reflexivity.
Qed.

(** The plan as the source builds it: four regions, the header first,
    then the three offsets that the last valid candidate records; the
    three lengths are the size that [Read] returned, which the source
    rounds only for the message it prints. *)
Lemma erase_plan (env : Env) (fl : Flags) (hdr : VolumeHeader) (w : World) (res : ReadResult) :
  last_valid (replay env fl hdr zero_InfoStruct (w_file w) (seq 0 3)) = Some res ->
  let offs := map int64_of_uint64 (is_InfoOffsets (res_info res)) in
  eraseRegions hdr (fst (probe_blocks env fl hdr w))
  = [ mkRegion "volume header" 0 (vh_SectorSize hdr);
      mkRegion "metadata block 0" (nth 0 offs 0) (res_size res);
      mkRegion "metadata block 1" (nth 1 offs 0) (res_size res);
      mkRegion "metadata block 2" (nth 2 offs 0) (res_size res) ].
Proof.
  intros H offs. unfold probe_blocks.
  rewrite probe_last_valid. cbn [info zero_Probe]. rewrite H. reflexivity.
Qed.

(** C1 (erase plan), on a volume with sector size 512 whose middle
    candidate alone validates, with a total encoded size of 72 bytes
    and the recorded offsets 600, 1100 and 1600.  The run prints the
    size rounded to the sector, 512, and then announces and overwrites
    72 bytes at each of the three offsets: the lengths of the metadata
    regions are not rounded. *)
Theorem erase_plan_lengths :
  let w := snd (main Sample.env (Sample.flags true) (Some Sample.image_one)) in
  round_up_sector 72 512 = 512
  /\ In (Stdout (MsgMetadataBlock 1 512)) (w_log w)
  /\ announced (w_log w)
     = [ mkRegion "volume header" 0 512;
         mkRegion "metadata block 0" 600 72;
         mkRegion "metadata block 1" 1100 72;
         mkRegion "metadata block 2" 1600 72 ]
  /\ extents (w_log w) = [(0, 512); (600, 72); (1100, 72); (1600, 72)].
Proof.
  intros w. split; [by_eval |]. split; [| split; by_eval].
  vm_compute. repeat (first [left; reflexivity | right]).
Qed.

(* ================================================================== *)
(** * The regions of [main] *)

Lemma binary_Read_value {A} (r r' : Reader) (n : nat) (dec : Cursor A) (x : A) :
  binary_Read r n dec = (r', inr x) -> exists bs, x = fst (dec bs).
Proof.
  unfold binary_Read. destruct (ReadFull r n) as [r1 [e | bs]]; intros H.
  - discriminate H.
  - exists bs. congruence.
Qed.

Lemma dec_InfoStructHeader_size_range (bs : list byte) :
  0 <= ih_Size (fst (dec_InfoStructHeader bs)) < 65536.
Proof.
  cbv [dec_InfoStructHeader cbind cret take_bytes uint16 uint fst ih_Size].
  apply (le_uint_firstn_range 2).
Qed.

Lemma dec_ValidationHeader_size_range (bs : list byte) :
  0 <= val_Size (fst (dec_ValidationHeader bs)) < 65536.
Proof.
  cbv [dec_ValidationHeader cbind cret uint16 uint32 uint fst val_Size].
  apply (le_uint_firstn_range 2).
Qed.

(** A call of [Read] that succeeds returns a size of at least 64, so
    that [validInfoSize] is zero only while no candidate has validated. *)
Lemma Read_success_size (s : InfoStruct) (r : Reader) :
  res_err (InfoStruct_Read s r) = None ->
  64 <= res_size (InfoStruct_Read s r) < 2 ^ 21.
Proof.
  unfold InfoStruct_Read.
  destruct (binary_Read r size_InfoStructHeader dec_InfoStructHeader)
    as [r1 [e | hdr]] eqn:E1; [discriminate |].
  destruct (negb (VerifySignature (ih_Signature hdr))); [discriminate |].
  destruct (version_size hdr) as [size |] eqn:V; [| discriminate].
  destruct (Z.ltb_spec size 64) as [L | L]; [discriminate |].
  destruct (ReadFull _ (Z.to_nat size)) as [r3 [e | buf]]; [discriminate |].
  destruct (binary_Read r3 size_ValidationHeader dec_ValidationHeader)
    as [r4 [e | v]] eqn:E4; [discriminate |].
  destruct (negb (ChecksumIEEE buf =? val_Crc32 v)); [discriminate |].
  destruct (binary_Read (mkReader buf 0) size_InfoStruct dec_InfoStruct)
    as [r5 [e | s']]; [discriminate |].
  intros _. cbn [res_size].
  apply binary_Read_value in E1. destruct E1 as [bs1 ->].
  apply binary_Read_value in E4. destruct E4 as [bs4 ->].
  pose proof (dec_InfoStructHeader_size_range bs1) as R1.
  pose proof (dec_ValidationHeader_size_range bs4) as R4.
  pose proof (version_size_range _ _ R1 V) as Rs.
  unfold add64. rewrite wrap64_small by (unfold two63; lia).
  change (2 ^ 21) with 2097152. lia.
Qed.

Lemma last_valid_ok (results : list ReadResult) (res : ReadResult) :
  last_valid results = Some res -> In res results /\ res_err res = None.
Proof.
  induction results as [| r rest IH]; [discriminate |].
  cbn [last_valid]. destruct (last_valid rest) as [later |].
  - intros H. injection H as <-. destruct (IH eq_refl) as [I E].
    split; [right; exact I | exact E].
  - destruct (res_err r) eqn:E; [discriminate |].
    intros H. injection H as <-. split; [left; reflexivity | exact E].
Qed.

Lemma replay_results (env : Env) (fl : Flags) (hdr : VolumeHeader) (candidates : list nat)
    (s : InfoStruct) (f : Reader) (res : ReadResult) :
  In res (replay env fl hdr s f candidates) ->
  exists s' r', res = InfoStruct_Read s' r'.
Proof.
  revert s f. induction candidates as [| i rest IH]; intros s f; [intros [] |].
  cbn [replay]. intros [<- | H].
  - eexists. eexists. reflexivity.
  - apply (IH _ _ H).
Qed.

(** When a candidate has validated and a wipe is requested, [main] runs
    the executor on the four regions of [erase_plan]; their lengths are
    not negative. *)
Lemma main_wipes_plan (env : Env) (fl : Flags) (bytes : list byte)
    (hdr : VolumeHeader) (res : ReadResult) :
  NArg fl = 1%nat -> 0 <= offset fl ->
  volume_header_at (mkReader bytes (offset fl)) = Some hdr ->
  validate_header hdr = None ->
  doWipe fl = true ->
  last_valid (replay env fl hdr zero_InfoStruct
                     (advance (mkReader bytes (offset fl)) 216) (seq 0 3))
  = Some res ->
  exists w,
    main env fl (Some bytes)
    = match wipe env (offset fl) (eraseRegions hdr (recorded res)) w with
      | (Some t, w') => (t, w')
      | (None, w') => (Exit 0, w')
      end
    /\ Forall (fun r => 0 <= Size r) (eraseRegions hdr (recorded res)).
Proof.
  intros HN Hoff Hh Hv Hw Hl.
  rewrite (main_after_header env fl bytes hdr HN Hoff Hh).
  cbv zeta. rewrite Hv, Hw.
  set (w1 := if verbose fl then _ else _).
  assert (F1 : w_file w1 = advance (mkReader bytes (offset fl)) 216).
  { unfold w1. destruct (verbose fl); reflexivity. }
  pose proof (probe_last_valid env fl hdr (seq 0 3) zero_Probe w1) as P.
  cbn [info zero_Probe] in P. rewrite F1, Hl in P.
  unfold probe_blocks.
  destruct (fold_left (probe_block env fl hdr) (seq 0 3) (zero_Probe, w1)) as [p w2].
  cbn [fst] in P. subst p.
  destruct (last_valid_ok _ _ Hl) as [Hin Hok].
  destruct (replay_results _ _ _ _ _ _ _ Hin) as (s' & r' & ->).
  pose proof (Read_success_size s' r' Hok) as Hsz.
  cbn [validInfoSize recorded].
  destruct (Z.eqb_spec (res_size (InfoStruct_Read s' r')) 0) as [Z0 | _]; [lia |].
  exists w2. split; [reflexivity |].
  pose proof (volume_header_at_wf _ _ Hh) as [_ Rs].
  unfold eraseRegions. cbn [validInfoSize recorded].
  repeat constructor; cbn [Size]; lia.
Qed.

(* ================================================================== *)
(** * Sources that end early *)

Lemma ReadFull_short (r : Reader) (n : nat) :
  0 <= rpos r -> (0 < n)%nat ->
  Z.of_nat (length (rdata r)) < rpos r + Z.of_nat n ->
  ReadFull r n
  = (if Z.of_nat (length (rdata r)) <=? rpos r then r else at_end r,
     inl (short_read r)).
Proof.
  intros Hp Hn Hlen. unfold ReadFull, short_read, at_end.
  destruct (Nat.eqb_spec n 0) as [-> | _]; [lia |].
  destruct (Z.leb_spec (Z.of_nat (length (rdata r))) (rpos r)) as [L | L].
  - reflexivity.
  - rewrite length_skipn.
    destruct (Nat.eqb_spec (length (rdata r) - Z.to_nat (rpos r)) 0); [lia |].
    destruct (Nat.ltb_spec (length (rdata r) - Z.to_nat (rpos r)) n); [| lia].
    f_equal. f_equal. lia.
Qed.

Lemma in_bounds_false (r : Reader) (n : Z) :
  wf_reader r -> in_bounds r n = false ->
  Z.of_nat (length (rdata r)) < rpos r + n.
Proof.
  intros [Hp Hl] H. unfold in_bounds in H.
  destruct (Z.leb_spec 0 (rpos r)); [| lia].
  destruct (Z.ltb_spec (Z.of_nat (length (rdata r))) two63); [| lia].
  destruct (Z.leb_spec (rpos r + n) (Z.of_nat (length (rdata r)))); [discriminate | lia].
Qed.

Lemma header_at_in_bounds (r : Reader) (hdr : InfoStructHeader) :
  header_at r = Some hdr -> in_bounds r 12 = true.
Proof.
  unfold header_at. destruct (in_bounds r 12); [reflexivity | discriminate].
Qed.

(** X1 (no header).  When fewer than 12 bytes are left at the position
    of the reader, [Read] returns the error of the short read as it is,
    [io.EOF] when nothing is left and [io.ErrUnexpectedEOF] otherwise;
    the size returned is -1, the receiver is as it was and the reader
    stands at the end of the source, or where it stood when it was
    already there. *)
Theorem Read_short_header (s : InfoStruct) (r : Reader) :
  0 <= rpos r ->
  Z.of_nat (length (rdata r)) < rpos r + 12 ->
  InfoStruct_Read s r
  = mkReadResult (-1) (Some (ErrIO (short_read r))) s
                 (if Z.of_nat (length (rdata r)) <=? rpos r then r else at_end r).
Proof.
  intros Hp Hlen. unfold InfoStruct_Read, binary_Read.
  rewrite (ReadFull_short r size_InfoStructHeader Hp)
    by (change (Z.of_nat size_InfoStructHeader) with 12;
        first [apply Nat.ltb_lt; reflexivity | exact Hlen]).
  reflexivity.
Qed.

(** X2 (foreign signature).  When the 12 bytes of a header can be read
    and its first eight bytes are not the magic, [Read] fails with the
    invalid-signature error that carries those eight bytes; the size
    returned is -1, the receiver is as it was and only the header has
    been read. *)
Theorem Read_bad_signature (s : InfoStruct) (r : Reader) :
  in_bounds r 12 = true ->
  bytes_at r 0 8 <> magic ->
  InfoStruct_Read s r
  = mkReadResult (-1) (Some (ErrInvalidSignature (bytes_at r 0 8))) s
                 (advance r 12).
Proof.
  intros B Hsig.
  assert (Hh : header_at r = Some (fst (dec_InfoStructHeader (bytes_at r 0 12))))
    by (unfold header_at; rewrite B; reflexivity).
  pose proof (header_at_fields r _ Hh) as F.
  unfold InfoStruct_Read. rewrite (header_at_read r _ Hh). rewrite F.
  cbn [ih_Signature].
  destruct (VerifySignature (bytes_at r 0 8)) eqn:V.
  - apply VerifySignature_magic in V. contradiction.
  - reflexivity.
Qed.

(** X3 (payload cut off).  When the header is good and promises [size]
    bytes, of which the source holds only a part, [Read] fails with
    [io.ErrUnexpectedEOF]: at least the header can be read again, so the
    error is never [io.EOF].  The size returned is the promised one, the
    receiver is as it was and the reader stands at the end of the
    source. *)
Theorem Read_short_payload (s : InfoStruct) (r : Reader)
    (hdr : InfoStructHeader) (size : Z) :
  header_at r = Some hdr ->
  VerifySignature (ih_Signature hdr) = true ->
  version_size hdr = Some size ->
  64 <= size ->
  Z.of_nat (length (rdata r)) < rpos r + size ->
  InfoStruct_Read s r
  = mkReadResult size (Some (ErrIO ErrUnexpectedEOF)) s (at_end r).
Proof.
  intros Hh Hsig Hv Hmin Hlen.
  pose proof (header_at_in_bounds r hdr Hh) as B.
  pose proof (in_bounds_inv r 12 B) as (Hp & Hn & Hl).
  unfold InfoStruct_Read.
  rewrite (header_at_read r hdr Hh), Hsig. cbn [negb]. rewrite Hv.
  destruct (Z.ltb_spec size 64); [lia |].
  rewrite (Seek_rewind r B).
  rewrite (ReadFull_short r (Z.to_nat size)) by lia.
  unfold short_read.
  destruct (Z.leb_spec (Z.of_nat (length (rdata r))) (rpos r)); [lia |].
  reflexivity.
Qed.

(** X4 (validation header cut off).  When the payload can be read and
    fewer than 8 bytes follow it, [Read] fails with the error that wraps
    the short read, whatever the checksum of the payload is; the size
    returned is that of the payload and the receiver is as it was. *)
Theorem Read_short_footer (s : InfoStruct) (r : Reader)
    (hdr : InfoStructHeader) (size : Z) :
  header_at r = Some hdr ->
  VerifySignature (ih_Signature hdr) = true ->
  version_size hdr = Some size ->
  64 <= size ->
  in_bounds r size = true ->
  Z.of_nat (length (rdata r)) < rpos r + size + 8 ->
  InfoStruct_Read s r
  = mkReadResult size
      (Some (ErrValidationHeader (short_read (advance r size)))) s
      (if Z.of_nat (length (rdata r)) =? rpos r + size
       then advance r size else at_end r).
Proof.
  intros Hh Hsig Hv Hmin Bs Hlen.
  pose proof (header_at_in_bounds r hdr Hh) as B.
  pose proof (in_bounds_inv r size Bs) as (Hp & Hn & Hl).
  unfold InfoStruct_Read.
  rewrite (header_at_read r hdr Hh), Hsig. cbn [negb]. rewrite Hv.
  destruct (Z.ltb_spec size 64); [lia |].
  rewrite (Seek_rewind r B).
  rewrite ReadFull_in_bounds by (rewrite Z2Nat.id by lia; exact Bs).
  rewrite Z2Nat.id by lia.
  unfold binary_Read.
  rewrite (ReadFull_short (advance r size) size_ValidationHeader)
    by (unfold advance; cbn [rpos rdata];
        change (Z.of_nat size_ValidationHeader) with 8;
        first [apply Nat.ltb_lt; reflexivity | lia]).
  unfold short_read, at_end, advance. cbn [rpos rdata].
  destruct (Z.leb_spec (Z.of_nat (length (rdata r))) (rpos r + size));
    destruct (Z.eqb_spec (Z.of_nat (length (rdata r))) (rpos r + size));
    try lia; reflexivity.
Qed.

(* ================================================================== *)
(** * What a successful decode implies *)

Lemma ReadFull_ok_inv (r r' : Reader) (n : nat) (bs : list byte) :
  wf_reader r -> (0 < n)%nat ->
  ReadFull r n = (r', inr bs) ->
  in_bounds r (Z.of_nat n) = true.
Proof.
  intros [Hp Hl] Hn. unfold ReadFull.
  destruct (Nat.eqb_spec n 0); [lia |].
  destruct (Z.leb_spec (Z.of_nat (length (rdata r))) (rpos r)) as [L | L].
  - cbn [length Nat.eqb]. discriminate.
  - rewrite length_skipn.
    destruct (Nat.eqb (length (rdata r) - Z.to_nat (rpos r)) 0); [discriminate |].
    destruct (Nat.ltb_spec (length (rdata r) - Z.to_nat (rpos r)) n);
      [discriminate |].
    intros _. apply in_bounds_intro; lia.
Qed.

Lemma binary_Read_ok_inv {A} (r r' : Reader) (n : nat) (dec : Cursor A) (x : A) :
  wf_reader r -> (0 < n)%nat ->
  binary_Read r n dec = (r', inr x) ->
  in_bounds r (Z.of_nat n) = true
  /\ r' = advance r (Z.of_nat n)
  /\ x = fst (dec (bytes_at r 0 (Z.of_nat n))).
Proof.
  intros W Hn H.
  assert (B : in_bounds r (Z.of_nat n) = true).
  { unfold binary_Read in H.
    destruct (ReadFull r n) as [r1 [e | bs]] eqn:E; [discriminate |].
    apply (ReadFull_ok_inv r r1 n bs W Hn E). }
  rewrite (binary_Read_in_bounds r n dec B) in H.
  split; [exact B |]. split; congruence.
Qed.

(** The conditions under which [Read] succeeds. *)
Lemma Read_success_inv (s : InfoStruct) (r : Reader) :
  wf_reader r ->
  res_err (InfoStruct_Read s r) = None ->
  exists hdr size v,
    header_at r = Some hdr
    /\ VerifySignature (ih_Signature hdr) = true
    /\ version_size hdr = Some size
    /\ 64 <= size
    /\ footer_at r size = Some v
    /\ ChecksumIEEE (bytes_at r 0 size) = val_Crc32 v.
Proof.
  intros W. pose proof W as [Hp Hl]. unfold InfoStruct_Read.
  destruct (binary_Read r size_InfoStructHeader dec_InfoStructHeader)
    as [r1 [e | hdr]] eqn:E1; [discriminate |].
  apply (binary_Read_ok_inv r r1) in E1;
    [| exact W | apply Nat.ltb_lt; reflexivity].
  destruct E1 as (B12 & -> & Ehdr).
  change (Z.of_nat size_InfoStructHeader) with 12 in B12, Ehdr.
  change (advance r (Z.of_nat size_InfoStructHeader)) with (advance r 12).
  assert (Hh : header_at r = Some hdr)
    by (unfold header_at; rewrite B12, Ehdr; reflexivity).
  destruct (VerifySignature (ih_Signature hdr)) eqn:Hsig; cbn [negb];
    [| discriminate].
  destruct (version_size hdr) as [size |] eqn:Hv; [| discriminate].
  destruct (Z.ltb_spec size 64) as [L | Hmin]; [discriminate |].
  rewrite (Seek_rewind r B12).
  destruct (ReadFull r (Z.to_nat size)) as [r3 [e | buf]] eqn:E3; [discriminate |].
  assert (Hpos : (0 < Z.to_nat size)%nat) by lia.
  pose proof (ReadFull_ok_inv r r3 (Z.to_nat size) buf W Hpos E3) as Bs.
  rewrite (ReadFull_in_bounds r _ Bs) in E3.
  rewrite Z2Nat.id in Bs, E3 by lia.
  assert (E3r : r3 = advance r size) by congruence.
  assert (E3b : buf = bytes_at r 0 size) by congruence.
  subst r3 buf. clear E3.
  pose proof (in_bounds_inv r size Bs) as (_ & Hn & _).
  assert (W3 : wf_reader (advance r size))
    by (split; unfold advance; cbn [rpos rdata]; lia).
  destruct (binary_Read (advance r size) size_ValidationHeader dec_ValidationHeader)
    as [r4 [e | v]] eqn:E4; [discriminate |].
  apply (binary_Read_ok_inv (advance r size) r4) in E4;
    [| exact W3 | apply Nat.ltb_lt; reflexivity].
  destruct E4 as (B8 & -> & Ev).
  change (Z.of_nat size_ValidationHeader) with 8 in B8, Ev.
  rewrite bytes_at_advance, Z.add_0_r in Ev.
  assert (B : in_bounds r (size + 8) = true).
  { apply in_bounds_inv in B8. unfold advance in B8. cbn [rpos rdata] in B8.
    apply in_bounds_intro; lia. }
  destruct (Z.eqb_spec (ChecksumIEEE (bytes_at r 0 size)) (val_Crc32 v)) as [C | C];
    cbn [negb]; [| discriminate].
  intros _. exists hdr, size, v.
  repeat split; try assumption.
  unfold footer_at. rewrite B, Ev. reflexivity.
Qed.

(** X5 (what validates).  On a reader with a position that is not
    negative, [Read] succeeds exactly when 12 bytes of header can be
    read, they start with the magic, the version is 1 or 2, the size it
    gives is at least 64, that many bytes and the 8 bytes of a
    validation header can be read from the start of the header, and the
    checksum of the former is the one stored in the latter. *)
Theorem Read_succeeds_iff (s : InfoStruct) (r : Reader) :
  wf_reader r ->
  (res_err (InfoStruct_Read s r) = None
   <-> exists hdr size v,
         header_at r = Some hdr
         /\ VerifySignature (ih_Signature hdr) = true
         /\ version_size hdr = Some size
         /\ 64 <= size
         /\ footer_at r size = Some v
         /\ ChecksumIEEE (bytes_at r 0 size) = val_Crc32 v).
Proof.
  intros W. split.
  - apply (Read_success_inv s r W).
  - intros (hdr & size & v & Hh & Hsig & Hv & Hmin & Hf & C).
    rewrite (InfoStruct_Read_block s r hdr size v Hh Hsig Hv Hmin Hf).
    rewrite C, Z.eqb_refl. reflexivity.
Qed.

(** X6 (a validated block).  The structure that a successful [Read]
    leaves in the receiver has the magic as its signature and version 1
    or 2; the payload size that its own size field and version give is
    at least 64, and the size returned exceeds it by less than 65536;
    it has three offsets. *)
Theorem Read_validated_block (s : InfoStruct) (r : Reader) :
  wf_reader r ->
  res_err (InfoStruct_Read s r) = None ->
  let block := res_info (InfoStruct_Read s r) in
  let h := is_Header block in
  let payload := if ih_Version h =? 1 then ih_Size h else 16 * ih_Size h in
  ih_Signature h = magic
  /\ (ih_Version h = 1 \/ ih_Version h = 2)
  /\ 64 <= payload
  /\ payload <= res_size (InfoStruct_Read s r) < payload + 65536
  /\ length (is_InfoOffsets block) = 3%nat.
Proof.
  intros W Hok.
  destruct (Read_success_inv s r W Hok)
    as (hdr & size & v & Hh & Hsig & Hv & Hmin & Hf & C).
  rewrite (InfoStruct_Read_block s r hdr size v Hh Hsig Hv Hmin Hf).
  rewrite C, Z.eqb_refl. cbn [res_info res_size].
  rewrite dec_InfoStruct_fields. cbn [is_Header is_InfoOffsets length].
  pose proof (header_at_fields r hdr Hh) as F.
  pose proof (header_at_size_range r hdr Hh) as Rraw.
  pose proof (footer_at_size_range r size v Hf) as Rextra.
  pose proof (in_bounds_inv r 12 (header_at_in_bounds r hdr Hh)) as (Hp & _ & _).
  assert (S8 : slice (bytes_at r 0 size) 0 8 = bytes_at r 0 8).
  { unfold slice at 1. rewrite bytes_at_sub by lia. reflexivity. }
  assert (S2 : slice (bytes_at r 0 size) 8 2 = bytes_at r 8 2).
  { unfold slice at 1. rewrite bytes_at_sub by lia. reflexivity. }
  assert (S10 : slice (bytes_at r 0 size) 10 2 = bytes_at r 10 2).
  { unfold slice at 1. rewrite bytes_at_sub by lia. reflexivity. }
  rewrite S8, S2, S10. cbn [ih_Signature ih_Version ih_Size].
  rewrite F in Hsig, Hv. cbn [ih_Signature] in Hsig.
  apply VerifySignature_magic in Hsig.
  unfold version_size in Hv. cbn [ih_Size ih_Version] in Hv.
  rewrite F in Rraw. cbn [ih_Size] in Rraw.
  split; [exact Hsig |].
  destruct (Z.eqb_spec (le_uint (bytes_at r 10 2)) 1) as [V1 | V1].
  - injection Hv as <-. repeat split; lia.
  - destruct (Z.eqb_spec (le_uint (bytes_at r 10 2)) 2) as [V2 | V2];
      [| discriminate].
    injection Hv as <-. unfold mul64 in *.
    rewrite wrap64_small in * by (unfold two63; lia).
    repeat split; lia.
Qed.

(** X7 (no stale data).  The size, the error and the reader that [Read]
    returns do not depend on what the receiver held; after a success
    the receiver does not depend on it either, and after an error it is
    what it was. *)
Theorem Read_receiver_independent (s1 s2 : InfoStruct) (r : Reader) :
  res_size (InfoStruct_Read s1 r) = res_size (InfoStruct_Read s2 r)
  /\ res_err (InfoStruct_Read s1 r) = res_err (InfoStruct_Read s2 r)
  /\ res_reader (InfoStruct_Read s1 r) = res_reader (InfoStruct_Read s2 r)
  /\ match res_err (InfoStruct_Read s1 r) with
     | None => res_info (InfoStruct_Read s1 r) = res_info (InfoStruct_Read s2 r)
     | Some _ => res_info (InfoStruct_Read s1 r) = s1
                 /\ res_info (InfoStruct_Read s2 r) = s2
     end.
Proof.
  unfold InfoStruct_Read.
  destruct (binary_Read r size_InfoStructHeader dec_InfoStructHeader)
    as [r1 [e | hdr]]; [repeat split |].
  destruct (negb (VerifySignature (ih_Signature hdr))); [repeat split |].
  destruct (version_size hdr) as [size |]; [| repeat split].
  destruct (size <? 64); [repeat split |].
  destruct (ReadFull _ (Z.to_nat size)) as [r3 [e | buf]]; [repeat split |].
  destruct (binary_Read r3 size_ValidationHeader dec_ValidationHeader)
    as [r4 [e | v]]; [repeat split |].
  destruct (negb (ChecksumIEEE buf =? val_Crc32 v)); [repeat split |].
  destruct (binary_Read (mkReader buf 0) size_InfoStruct dec_InfoStruct)
    as [r5 [e | s']]; repeat split.
Qed.

(* ================================================================== *)
(** * The version switch, on every path of the decoder *)

(** [Read] with a good header whose payload the source does not hold in
    full. *)
Lemma Read_cut_payload (s : InfoStruct) (r : Reader)
    (hdr : InfoStructHeader) (size : Z) :
  header_at r = Some hdr ->
  VerifySignature (ih_Signature hdr) = true ->
  version_size hdr = Some size ->
  64 <= size ->
  in_bounds r size = false ->
  InfoStruct_Read s r
  = mkReadResult size (Some (ErrIO ErrUnexpectedEOF)) s (at_end r).
Proof.
  intros Hh Hsig Hv Hmin Bs.
  pose proof (header_at_in_bounds r hdr Hh) as B.
  pose proof (in_bounds_inv r 12 B) as (Hp & Hn & Hl).
  pose proof (in_bounds_false r size (conj Hp Hl) Bs) as Hlen.
  unfold InfoStruct_Read.
  rewrite (header_at_read r hdr Hh), Hsig. cbn [negb]. rewrite Hv.
  destruct (Z.ltb_spec size 64); [lia |].
  rewrite (Seek_rewind r B).
  rewrite (ReadFull_short r (Z.to_nat size)) by lia.
  unfold short_read.
  destruct (Z.leb_spec (Z.of_nat (length (rdata r))) (rpos r)); [lia |].
  reflexivity.
Qed.

(** [Read] with a good header and a payload behind which the source
    does not hold a validation header in full. *)
Lemma Read_cut_footer (s : InfoStruct) (r : Reader)
    (hdr : InfoStructHeader) (size : Z) :
  header_at r = Some hdr ->
  VerifySignature (ih_Signature hdr) = true ->
  version_size hdr = Some size ->
  64 <= size ->
  in_bounds r size = true ->
  footer_at r size = None ->
  InfoStruct_Read s r
  = mkReadResult size
      (Some (ErrValidationHeader (short_read (advance r size)))) s
      (if Z.of_nat (length (rdata r)) =? rpos r + size
       then advance r size else at_end r).
Proof.
  intros Hh Hsig Hv Hmin Bs Hf.
  pose proof (header_at_in_bounds r hdr Hh) as B.
  pose proof (in_bounds_inv r size Bs) as (Hp & Hn & Hl).
  assert (Hlen : Z.of_nat (length (rdata r)) < rpos r + (size + 8)).
  { apply in_bounds_false; [split; assumption |].
    unfold footer_at in Hf.
    destruct (in_bounds r (size + 8)); [discriminate | reflexivity]. }
  unfold InfoStruct_Read.
  rewrite (header_at_read r hdr Hh), Hsig. cbn [negb]. rewrite Hv.
  destruct (Z.ltb_spec size 64); [lia |].
  rewrite (Seek_rewind r B).
  rewrite ReadFull_in_bounds by (rewrite Z2Nat.id by lia; exact Bs).
  rewrite Z2Nat.id by lia.
  unfold binary_Read.
  rewrite (ReadFull_short (advance r size) size_ValidationHeader)
    by (unfold advance; cbn [rpos rdata];
        change (Z.of_nat size_ValidationHeader) with 8;
        first [apply Nat.ltb_lt; reflexivity | lia]).
  unfold short_read, at_end, advance. cbn [rpos rdata].
  destruct (Z.leb_spec (Z.of_nat (length (rdata r))) (rpos r + size));
    destruct (Z.eqb_spec (Z.of_nat (length (rdata r))) (rpos r + size));
    try lia; reflexivity.
Qed.

(** C4 (version dispatch).  For a header with the signature, the raw
    size field and the version are the two little-endian 16-bit values
    at bytes 8 and 10.  Version 1 makes the payload size the raw field,
    version 2 makes it sixteen times that field, and with any other
    version [Read] fails with the unknown-version error, having read the
    header only.  With version 1 or 2, everything [Read] does afterwards
    goes by the size so interpreted, and the unknown-version error is
    not what it returns: below 64 it fails with the size-too-small error
    for that size; from 64 on it reads that many bytes from the start of
    the header and the validation header behind them, fails with that
    size when the source ends in the payload or in the validation
    header, and otherwise lets the checksum of those bytes decide, the
    size returned being that size, or that size plus the extra size
    after a success. *)
Theorem version_dispatch (s : InfoStruct) (r : Reader) (hdr : InfoStructHeader) :
  header_at r = Some hdr ->
  VerifySignature (ih_Signature hdr) = true ->
  ih_Size hdr = le_uint (bytes_at r 8 2)
  /\ ih_Version hdr = le_uint (bytes_at r 10 2)
  /\ (ih_Version hdr = 1 -> version_size hdr = Some (ih_Size hdr))
  /\ (ih_Version hdr = 2 -> version_size hdr = Some (ih_Size hdr * 16))
  /\ (ih_Version hdr <> 1 -> ih_Version hdr <> 2 ->
      version_size hdr = None
      /\ InfoStruct_Read s r
         = mkReadResult (ih_Size hdr) (Some ErrUnknownVersion) s (advance r 12))
  /\ (forall size : Z,
        (ih_Version hdr = 1 /\ size = ih_Size hdr)
        \/ (ih_Version hdr = 2 /\ size = ih_Size hdr * 16) ->
        res_err (InfoStruct_Read s r) <> Some ErrUnknownVersion
        /\ (size < 64 ->
            InfoStruct_Read s r
            = mkReadResult size (Some ErrSizeTooSmall) s (advance r 12))
        /\ (64 <= size -> in_bounds r size = false ->
            InfoStruct_Read s r
            = mkReadResult size (Some (ErrIO ErrUnexpectedEOF)) s (at_end r))
        /\ (64 <= size -> in_bounds r size = true -> footer_at r size = None ->
            InfoStruct_Read s r
            = mkReadResult size
                (Some (ErrValidationHeader (short_read (advance r size)))) s
                (if Z.of_nat (length (rdata r)) =? rpos r + size
                 then advance r size else at_end r))
        /\ (64 <= size ->
            forall v : ValidationHeader, footer_at r size = Some v ->
            InfoStruct_Read s r
            = if ChecksumIEEE (bytes_at r 0 size) =? val_Crc32 v
              then mkReadResult (size + val_Size v) None
                     (fst (dec_InfoStruct
                             (firstn size_InfoStruct (bytes_at r 0 size))))
                     (advance r (size + 8))
              else mkReadResult size
                     (Some (ErrChecksumMismatch
                              (val_Crc32 v) (ChecksumIEEE (bytes_at r 0 size))))
                     s (advance r (size + 8)))).
Proof.
  intros Hh Hsig.
  pose proof (header_at_size_range r hdr Hh) as R.
  pose proof (header_at_fields r hdr Hh) as F.
  assert (V1 : ih_Version hdr = 1 -> version_size hdr = Some (ih_Size hdr)).
  { unfold version_size. intros ->. reflexivity. }
  assert (V2 : ih_Version hdr = 2 -> version_size hdr = Some (ih_Size hdr * 16)).
  { unfold version_size. intros ->. cbn [Z.eqb]. unfold mul64.
    rewrite wrap64_small by (unfold two63; lia). reflexivity. }
  split; [rewrite F at 1; reflexivity |].
  split; [rewrite F at 1; reflexivity |].
  split; [exact V1 |]. split; [exact V2 |]. split.
  - intros N1 N2.
    assert (V : version_size hdr = None).
    { unfold version_size.
      destruct (Z.eqb_spec (ih_Version hdr) 1); [contradiction |].
      destruct (Z.eqb_spec (ih_Version hdr) 2); [contradiction |].
      reflexivity. }
    split; [exact V |].
    unfold InfoStruct_Read.
    rewrite (header_at_read r hdr Hh), Hsig. cbn [negb].
    rewrite V. reflexivity.
  - intros size Hcase.
    assert (Hv : version_size hdr = Some size).
    { destruct Hcase as [[E ->] | [E ->]]; [apply V1 | apply V2]; exact E. }
    assert (Small : size < 64 ->
                    InfoStruct_Read s r
                    = mkReadResult size (Some ErrSizeTooSmall) s (advance r 12)).
    { intros Hlt. unfold InfoStruct_Read.
      rewrite (header_at_read r hdr Hh), Hsig. cbn [negb]. rewrite Hv.
      destruct (Z.ltb_spec size 64); [reflexivity | lia]. }
    split; [| split; [exact Small | split; [| split]]].
    + destruct (Z.lt_ge_cases size 64) as [Hlt | Hmin].
      * rewrite (Small Hlt). discriminate.
      * destruct (in_bounds r size) eqn:Bs.
        -- destruct (footer_at r size) as [v |] eqn:Hf.
           ++ rewrite (InfoStruct_Read_block s r hdr size v Hh Hsig Hv Hmin Hf).
              destruct (ChecksumIEEE (bytes_at r 0 size) =? val_Crc32 v);
                discriminate.
           ++ rewrite (Read_cut_footer s r hdr size Hh Hsig Hv Hmin Bs Hf).
              discriminate.
        -- rewrite (Read_cut_payload s r hdr size Hh Hsig Hv Hmin Bs).
           discriminate.
    + intros Hmin Bs. apply (Read_cut_payload s r hdr size Hh Hsig Hv Hmin Bs).
    + intros Hmin Bs Hf.
      apply (Read_cut_footer s r hdr size Hh Hsig Hv Hmin Bs Hf).
    + intros Hmin v Hf.
      apply (InfoStruct_Read_block s r hdr size v Hh Hsig Hv Hmin Hf).
Qed.

(** A block of version 2 whose size field is 4: 64 bytes are read and
    validated, and the size returned is 72. *)
Lemma version_dispatch_witness :
  res_size (InfoStruct_Read zero_InfoStruct
              (mkReader (Sample.block 64 4 2 8 [600; 1100; 1600]) 0)) = 72
  /\ res_err (InfoStruct_Read zero_InfoStruct
                (mkReader (Sample.block 64 4 2 8 [600; 1100; 1600]) 0)) = None.
Proof.
  destruct (version_dispatch zero_InfoStruct
              (mkReader (Sample.block 64 4 2 8 [600; 1100; 1600]) 0)
              (mkInfoHeader magic 4 2))
    as (_ & _ & _ & _ & _ & H); [by_eval | by_eval |].
  destruct (H 64) as (_ & _ & _ & _ & K).
  { right. split; reflexivity. }
  assert (L64 : 64 <= 64) by lia.
  rewrite (K L64 (fst (dec_ValidationHeader
                         (bytes_at (mkReader (Sample.block 64 4 2 8 [600; 1100; 1600]) 0)
                                   64 8)))).
  - split; by_eval.
  - by_eval.
Defined.

(* ================================================================== *)
(** * The signature and the identifier, by their bytes *)

(** X8 (exact signature).  [VerifySignature] accepts the eight bytes of
    [-FVE-FS-] and nothing else: no shorter or longer array, no other
    case. *)
Theorem VerifySignature_exact (b : list byte) :
  (VerifySignature b = true <-> b = magic)
  /\ (length b <> 8%nat -> VerifySignature b = false).
Proof.
  split; [apply VerifySignature_magic |].
  intros L. destruct (VerifySignature b) eqn:V; [| reflexivity].
  apply VerifySignature_magic in V. subst b. contradiction L. reflexivity.
Qed.

Lemma append_length (a b : string) :
  String.length (a ++ b) = (String.length a + String.length b)%nat.
Proof.
  induction a as [| c a IH]; cbn [append String.length Nat.add]; congruence.
Qed.

Lemma wf_Guid_ranges (g : Guid) :
  wf_Guid g ->
  0 <= guid_A g < 16 ^ Z.of_nat 8 /\ 0 <= guid_B g < 16 ^ Z.of_nat 4
  /\ 0 <= guid_C g < 16 ^ Z.of_nat 4.
Proof.
  intros (RA & RB & RC & _).
  change (16 ^ Z.of_nat 8) with (2 ^ 32). change (16 ^ Z.of_nat 4) with (2 ^ 16).
  tauto.
Qed.

(** X9 (the rendering of a GUID).  For identifiers whose fields are in
    the range of their types, [String] gives 36 characters, and two
    identifiers that render alike are the same: comparing the strings,
    as [main] does, is comparing the identifiers. *)
Theorem Guid_String_faithful (g1 g2 : Guid) :
  wf_Guid g1 -> wf_Guid g2 ->
  String.length (Guid_String g1) = 36%nat
  /\ (Guid_String g1 = Guid_String g2 -> g1 = g2).
Proof.
  intros W1 W2.
  destruct (wf_Guid_ranges g1 W1) as (RA1 & RB1 & RC1).
  destruct (wf_Guid_ranges g2 W2) as (RA2 & RB2 & RC2).
  destruct W1 as (_ & _ & _ & LD1 & LE1). destruct W2 as (_ & _ & _ & LD2 & LE2).
  split.
  - unfold Guid_String. rewrite !append_length.
    rewrite !fmt_X_length
      by (first [apply Nat.leb_le; reflexivity | field_range]).
    reflexivity.
  - destruct g1 as [A1 B1 C1 D1 E1]. destruct g2 as [A2 B2 C2 D2 E2].
    cbn [guid_A guid_B guid_C guid_D guid_E] in *.
    destruct D1 as [| d0 [| d1 [| ? ?]]]; try discriminate LD1.
    destruct D2 as [| d0' [| d1' [| ? ?]]]; try discriminate LD2.
    destruct E1 as [| e0 [| e1 [| e2 [| e3 [| e4 [| e5 [| ? ?]]]]]]];
      try discriminate LE1.
    destruct E2 as [| e0' [| e1' [| e2' [| e3' [| e4' [| e5' [| ? ?]]]]]]];
      try discriminate LE2.
    clear LD1 LD2 LE1 LE2.
    unfold Guid_String. cbn [guid_A guid_B guid_C guid_D guid_E].
    intros H.
    split_field H HA. skip_dash H.
    split_field H HB. skip_dash H.
    split_field H HC. skip_dash H.
    split_field H HD0. split_field H HD1. skip_dash H.
    split_field H HE0. split_field H HE1. split_field H HE2.
    split_field H HE3. split_field H HE4.
    apply fmt_X_inj in H; [| apply Nat.leb_le; reflexivity | field_range ..].
    unfold byte_at in *. cbn [nth] in *.
    apply byte_to_Z_inj in HD0, HD1, HE0, HE1, HE2, HE3, HE4, H.
    subst. reflexivity.
Qed.

(** The lowest byte of a little-endian value, and the rest. *)
Lemma le_digit (x y c : Z) :
  0 <= x < 256 -> x + 256 * y = c -> x = c mod 256 /\ y = c / 256.
Proof.
  intros R E. split.
  - apply (Z.mod_unique_pos c 256 y x); lia.
  - apply (Z.div_unique_pos c 256 y x); lia.
Qed.

Lemma byte_of_value (b : byte) (z : Z) :
  byte_to_Z b = z -> Byte.of_N (Z.to_N z) = Some b.
Proof.
  intros <-. unfold byte_to_Z. rewrite N2Z.id. apply Byte.of_to_N.
Qed.

Ltac low_byte H E :=
  apply le_digit in H; [destruct H as [E H] | apply byte_to_Z_range];
  apply byte_of_value in E; vm_compute in E; injection E as E.

Ltac last_byte H :=
  rewrite Z.add_0_r in H; apply byte_of_value in H; vm_compute in H;
  injection H as H.

(** X10 (the identifier on disk).  The sixteen bytes of a header's GUID
    render as [INFO_GUID] exactly when they are 3B D6 67 49, 29 2E,
    D8 4A, 83 99, F6 A3 39 E3 D0 01: the first three fields are stored
    least significant byte first and printed most significant digit
    first, the last eight bytes are printed as they are stored. *)
Theorem INFO_GUID_on_disk (bs : list byte) :
  length bs = 16%nat ->
  (Guid_String (fst (dec_Guid bs)) = INFO_GUID <-> bs = INFO_GUID_bytes).
Proof.
  intros L.
  do 16 (destruct bs as [| ? bs]; [discriminate L |]).
  destruct bs; [| discriminate L]. clear L.
  assert (W : wf_Guid (fst (dec_Guid [b; b0; b1; b2; b3; b4; b5; b6; b7; b8;
                                      b9; b10; b11; b12; b13; b14]))).
  { cbv [dec_Guid cbind cret take_bytes uint16 uint32 uint fst wf_Guid
         guid_A guid_B guid_C guid_D guid_E].
    repeat split;
      try apply (le_uint_firstn_range 4);
      try apply (le_uint_firstn_range 2). }
  rewrite (Guid_String_known _ W).
  cbv [dec_Guid cbind cret take_bytes uint16 uint32 uint fst].
  cbn [firstn skipn le_uint].
  unfold known_guid, INFO_GUID_bytes.
  split.
  - intros H. injection H as HA HB HC -> -> -> -> -> -> -> ->.
    low_byte HA E0. low_byte HA E1. low_byte HA E2. last_byte HA.
    low_byte HB E4. last_byte HB.
    low_byte HC E6. last_byte HC.
    subst. reflexivity.
  - intros H. injection H as -> -> -> -> -> -> -> -> -> -> -> -> -> -> -> ->.
    reflexivity.
Qed.

(* ================================================================== *)
(** * Diagnostics *)

Lemma substring_last (s : string) (c : ascii) :
  substring (String.length s) 1 (s ++ String c EmptyString) = String c EmptyString.
Proof.
  induction s as [| a s IH]; [reflexivity |].
  cbn [String.length append substring]. exact IH.
Qed.

Lemma last_char (s : string) (c : ascii) :
  s <> EmptyString ->
  substring (String.length s - 1) 1 s = String c EmptyString ->
  exists body, s = (body ++ String c EmptyString)%string.
Proof.
  induction s as [| a s IH]; intros N H; [contradiction N; reflexivity |].
  destruct s as [| b s].
  - cbn in H. injection H as ->. exists EmptyString. reflexivity.
  - cbn [String.length Nat.sub] in H.
    change (substring (S (String.length s)) 1 (String a (String b s)))
      with (substring (String.length s) 1 (String b s)) in H.
    destruct IH as [body E].
    + discriminate.
    + cbn [String.length Nat.sub]. rewrite Nat.sub_0_r. exact H.
    + exists (String a body). cbn [append]. rewrite <- E. reflexivity.
Qed.

Lemma fatal_line_terminated (body : string) :
  fatal_line (body ++ newline) = (body ++ newline)%string.
Proof.
  unfold fatal_line, newline.
  rewrite append_length. cbn [String.length].
  replace (String.length body + 1 - 1)%nat with (String.length body) by lia.
  rewrite substring_last, String.eqb_refl. cbn [negb].
  rewrite andb_false_r. reflexivity.
Qed.

(** X11 (the line [fatal] prints).  [fatal] prints its format as it is
    or with one newline appended; what it prints ends in a newline
    unless the format is empty; a format that ends in a newline is
    printed as it is, so that no newline is ever doubled. *)
Theorem fatal_line_newline (format : string) :
  (fatal_line format = format \/ fatal_line format = (format ++ newline)%string)
  /\ (format = EmptyString /\ fatal_line format = EmptyString
      \/ exists body, fatal_line format = (body ++ newline)%string)
  /\ fatal_line (format ++ newline) = (format ++ newline)%string
  /\ fatal_line (fatal_line format) = fatal_line format.
Proof.
  assert (Cases : format = EmptyString /\ fatal_line format = EmptyString
                  \/ fatal_line format = (format ++ newline)%string
                  \/ fatal_line format = format
                     /\ exists body, format = (body ++ newline)%string).
  { destruct format as [| a s]; [left; split; reflexivity |]. right.
    unfold fatal_line.
    change (Nat.ltb 0 (String.length (String a s))) with true. cbn [andb].
    destruct (String.eqb_spec
                (substring (String.length (String a s) - 1) 1 (String a s))
                newline) as [E | E]; cbn [negb].
    - right. split; [reflexivity |].
      apply (last_char (String a s) (ascii_of_nat 10)); [discriminate | exact E].
    - left. reflexivity. }
  split; [| split; [| split]].
  - destruct Cases as [[-> E] | [E | [E _]]]; tauto.
  - destruct Cases as [C | [E | [E [body B]]]].
    + left. exact C.
    + right. exists format. exact E.
    + right. exists body. rewrite E. exact B.
  - apply fatal_line_terminated.
  - destruct Cases as [[-> E] | [E | [E _]]].
    + reflexivity.
    + rewrite E. apply fatal_line_terminated.
    + rewrite E. exact E.
Qed.

(* ================================================================== *)
(** * The layout of the volume header *)

(** X12 (layout).  The fields of a decoded volume header, by their
    place: the jump at 0, the signature at 3, the sector size at 11,
    the sectors per cluster at 13, the reserved clusters at 14, the
    three 64-bit counts at 40, 48 and 56, the GUID at 160, the three
    metadata offsets at 176, 184 and 192 and the two others at 200 and
    208, each number least significant byte first. *)
Theorem volume_header_layout (r : Reader) (hdr : VolumeHeader) :
  volume_header_at r = Some hdr ->
  hdr = mkVolumeHeader
          (bytes_at r 0 3) (bytes_at r 3 8)
          (le_uint (bytes_at r 11 2)) (le_uint (bytes_at r 13 1))
          (le_uint (bytes_at r 14 2))
          (le_uint (bytes_at r 40 8)) (le_uint (bytes_at r 48 8))
          (le_uint (bytes_at r 56 8))
          (mkGuid (le_uint (bytes_at r 160 4)) (le_uint (bytes_at r 164 2))
                  (le_uint (bytes_at r 166 2))
                  (bytes_at r 168 2) (bytes_at r 170 6))
          [le_uint (bytes_at r 176 8); le_uint (bytes_at r 184 8);
           le_uint (bytes_at r 192 8)]
          [le_uint (bytes_at r 200 8); le_uint (bytes_at r 208 8)].
Proof.
  unfold volume_header_at. intros H.
  destruct (in_bounds r 216) eqn:B; [| discriminate].
  assert (E : fst (dec_VolumeHeader (bytes_at r 0 216)) = hdr) by congruence.
  rewrite <- E. clear H E.
  apply in_bounds_inv in B. destruct B as (Hp & _ & _).
  cbv [dec_VolumeHeader dec_Guid cbind cret take_bytes skip
       uint16 uint32 uint64 uint fst].
  rewrite !skipn_skipn. cbn [Nat.add].
  rewrite <- (skipn_O (bytes_at r 0 216)) at 1.
  rewrite !bytes_at_sub by (try lia; apply Nat.leb_le; reflexivity).
  reflexivity.
Qed.

(* ================================================================== *)
(** * The run as a whole *)

Lemma main_header (env : Env) (fl : Flags) (bytes : list byte) :
  NArg fl = 1%nat -> 0 <= offset fl ->
  main env fl (Some bytes)
  = match binary_Read (File_Seek env (mkReader bytes 0) (offset fl))
                      size_VolumeHeader dec_VolumeHeader with
    | (f, inl e) => fatal (FatalCantReadHeader e) (mkWorld f [] 0 0)
    | (f, inr hdr) => after_header env fl hdr (mkWorld f [] 0 0)
    end.
Proof.
  intros HN Hoff. unfold main, after_header. rewrite HN. cbn [Nat.eqb negb].
  destruct (Z.ltb_spec (offset fl) 0); [lia |].
  unfold with_file at 1 2. cbn [w_file w_log w_rand w_write].
  destruct (binary_Read _ size_VolumeHeader dec_VolumeHeader) as [f [e | hdr]];
    reflexivity.
Qed.

Lemma before_probe_reads_only (fl : Flags) (hdr : VolumeHeader) (w : World) :
  reads_only w (before_probe fl hdr w)
  /\ w_file (before_probe fl hdr w) = w_file w.
Proof.
  unfold before_probe.
  destruct (print_offsets_reads_only hdr w) as [R F].
  destruct (verbose fl); [| split; assumption].
  split; [| exact F].
  eapply reads_only_trans; [exact R | apply reads_only_emit; reflexivity].
Qed.

Lemma reads_only_fatal (w : World) (f : Fatal) : reads_only w (snd (fatal f w)).
Proof. unfold fatal. cbn [snd]. apply reads_only_emit. reflexivity. Qed.

(** Without [-wipe] the run behind the header only reads and prints. *)
Lemma after_header_reads_only (env : Env) (fl : Flags) (hdr : VolumeHeader)
    (w : World) :
  doWipe fl = false ->
  reads_only w (snd (after_header env fl hdr w))
  /\ (fst (after_header env fl hdr w) = Exit 0
      \/ fst (after_header env fl hdr w) = Exit 1).
Proof.
  intros Hw. unfold after_header.
  destruct (validate_header hdr) as [bad |].
  - split; [apply reads_only_fatal | right; reflexivity].
  - cbv zeta. fold (before_probe fl hdr w).
    destruct (before_probe_reads_only fl hdr w) as [R1 _].
    pose proof (probe_fold_reads_only env fl hdr (seq 0 3) zero_Probe
                                      (before_probe fl hdr w)) as R2.
    unfold probe_blocks.
    destruct (fold_left (probe_block env fl hdr) (seq 0 3)
                        (zero_Probe, before_probe fl hdr w)) as [p w2].
    cbn [snd] in R2.
    destruct (validInfoSize p =? 0).
    + split; [| right; reflexivity].
      eapply reads_only_trans; [exact R1 |].
      eapply reads_only_trans; [exact R2 | apply reads_only_fatal].
    + rewrite Hw. cbn [fst snd]. split; [| left; reflexivity].
      eapply reads_only_trans; [exact R1 | exact R2].
Qed.

Lemma reads_only_fresh (f : Reader) (w : World) :
  reads_only (mkWorld f [] 0 0) w ->
  rdata (w_file w) = rdata f /\ w_rand w = 0%nat /\ w_write w = 0%nat
  /\ writes (w_log w) = [] /\ announced (w_log w) = []
  /\ filter is_rand (w_log w) = [].
Proof.
  intros (D & R & W & new & L & Q). cbn [w_file w_log w_rand w_write] in *.
  rewrite L. cbn [app].
  destruct (quiet_log new Q) as (Hw & Ha & Hr). tauto.
Qed.

(** X13 (looking does not touch).  Without [-wipe], whatever the file
    holds and whatever the other flags are, the run calls neither
    [rand.Read] nor [f.Write] and ends with status 0, 1 or 2; when the
    file was opened, its bytes are at the end what they were. *)
Theorem main_read_only (env : Env) (fl : Flags) (bytes : list byte) :
  doWipe fl = false ->
  let t := fst (main env fl (Some bytes)) in
  let w := snd (main env fl (Some bytes)) in
  writes (w_log w) = []
  /\ filter is_rand (w_log w) = []
  /\ w_rand w = 0%nat /\ w_write w = 0%nat
  /\ (t = Exit 0 \/ t = Exit 1 \/ t = Exit 2)
  /\ (NArg fl = 1%nat /\ 0 <= offset fl -> rdata (w_file w) = bytes).
Proof.
  intros Hw t w. unfold t, w. clear t w.
  destruct (Nat.eqb_spec (NArg fl) 1) as [HN | HN].
  - destruct (Z.ltb_spec (offset fl) 0) as [Hneg | Hoff].
    + unfold main. rewrite HN. cbn [Nat.eqb negb].
      destruct (Z.ltb_spec (offset fl) 0); [| lia].
      cbn. repeat split; try tauto. lia.
    + rewrite (main_header env fl bytes HN Hoff).
      pose proof (binary_Read_rdata (File_Seek env (mkReader bytes 0) (offset fl))
                                    size_VolumeHeader dec_VolumeHeader) as D.
      rewrite File_Seek_rdata in D. cbn [rdata] in D.
      destruct (binary_Read _ size_VolumeHeader dec_VolumeHeader) as [f [e | hdr]];
        cbn [fst] in D.
      * cbn. repeat split; tauto.
      * destruct (after_header_reads_only env fl hdr (mkWorld f [] 0 0) Hw)
          as [R T].
        destruct (reads_only_fresh f _ R) as (Hd & Hr & Hwr & Hws & _ & Hrs).
        repeat split; try assumption; [tauto | congruence].
  - unfold main. destruct (Nat.eqb_spec (NArg fl) 1); [contradiction |].
    cbn. repeat split; tauto.
Qed.

(** X14 (no header).  When the file can be brought to the offset, that
    is, when the offset lies within the file or within what the file
    system or device lets it seek to, and fewer than 216 bytes lie
    behind it, the run ends with status 1 and the diagnostic that the
    header cannot be read is its only output; the file is not
    written. *)
Theorem main_short_header (env : Env) (fl : Flags) (bytes : list byte) :
  NArg fl = 1%nat ->
  reachable env (mkReader bytes 0) (offset fl) ->
  Z.of_nat (length bytes) < offset fl + 216 ->
  let r := mkReader bytes (offset fl) in
  main env fl (Some bytes)
  = (Exit 1,
     mkWorld (if Z.of_nat (length bytes) <=? offset fl then r else at_end r)
             [Stderr ("can't read header: %s" ++ newline)
                     (FatalCantReadHeader (short_read r))] 0 0).
Proof.
  intros HN Hreach Hlen r.
  pose proof (proj1 Hreach) as Hoff.
  rewrite (main_header env fl bytes HN) by lia.
  rewrite (File_Seek_reachable _ _ _ Hreach). cbn [rdata]. fold r.
  unfold binary_Read.
  rewrite (ReadFull_short r size_VolumeHeader)
    by (cbn [r rpos rdata]; change (Z.of_nat size_VolumeHeader) with 216;
        first [apply Nat.ltb_lt; reflexivity | lia]).
  reflexivity.
Qed.

(** Where the offset cannot be reached the seek is refused, and the
    header is decoded at the start of the file: on the sample volume,
    with nothing to be reached behind its end, an offset of 4096 is
    passed over, the header at 0 is accepted, the seeks to the three
    candidates are refused as well, and none of the three reads
    validates where the file stands. *)
Example main_refused_offset :
  fst (main Sample.faulty_env (mkFlags 4096 false false 1) (Some Sample.image))
  = Exit 1
  /\ reports (w_log (snd (main Sample.faulty_env (mkFlags 4096 false false 1)
                               (Some Sample.image))))
     = [0; 1; 2]%nat.
Proof. split; by_eval. Qed.

Lemma dec_VolumeHeader_sector_range (bs : list byte) :
  0 <= vh_SectorSize (fst (dec_VolumeHeader bs)) < 65536.
Proof.
  cbv [dec_VolumeHeader dec_Guid cbind cret take_bytes skip
       uint16 uint32 uint64 uint fst vh_SectorSize].
  apply (le_uint_firstn_range 2).
Qed.

(** With lengths that are not negative the executor ends the run with
    status 1 or runs to its end. *)
Lemma wipe_no_panic (env : Env) (base : Z) (regions : list RegionDesc) (w : World) :
  Forall (fun r => 0 <= Size r) regions ->
  fst (wipe env base regions w) = None
  \/ fst (wipe env base regions w) = Some (Exit 1).
Proof.
  intros Hall. revert w. induction Hall as [| r rest Hs Hrest IH]; intros w.
  - left. reflexivity.
  - destruct (rand_source env (w_rand w)) as [g |] eqn:Hr.
    + destruct (wipe_region env base r rest w g Hs Hr) as (w' & Ew & _).
      rewrite Ew. apply IH.
    + right. apply (wipe_no_entropy env base r rest w Hs Hr).
Qed.

(** The size that the loop over the candidates leaves is 0 or at least
    64. *)
Lemma probe_size (env : Env) (fl : Flags) (hdr : VolumeHeader) (w : World) :
  validInfoSize (fst (probe_blocks env fl hdr w)) = 0
  \/ 64 <= validInfoSize (fst (probe_blocks env fl hdr w)).
Proof.
  unfold probe_blocks. rewrite probe_last_valid.
  destruct (last_valid _) as [res |] eqn:L; [| left; reflexivity].
  right. destruct (last_valid_ok _ _ L) as [Hin Hok].
  destruct (replay_results _ _ _ _ _ _ _ Hin) as (s' & r' & ->).
  cbn [recorded validInfoSize]. apply (Read_success_size s' r' Hok).
Qed.

Lemma after_header_exit (env : Env) (fl : Flags) (hdr : VolumeHeader) (w : World) :
  0 <= vh_SectorSize hdr ->
  fst (after_header env fl hdr w) = Exit 0
  \/ fst (after_header env fl hdr w) = Exit 1.
Proof.
  intros Hs. unfold after_header.
  destruct (validate_header hdr) as [bad |]; [right; reflexivity |].
  cbv zeta. fold (before_probe fl hdr w).
  pose proof (probe_size env fl hdr (before_probe fl hdr w)) as P.
  destruct (probe_blocks env fl hdr (before_probe fl hdr w)) as [p w2].
  cbn [fst] in P.
  destruct (Z.eqb_spec (validInfoSize p) 0) as [Z0 | NZ]; [right; reflexivity |].
  destruct (doWipe fl); [| left; reflexivity].
  assert (Hall : Forall (fun r => 0 <= Size r) (eraseRegions hdr p)).
  { unfold eraseRegions. repeat constructor; cbn [Size]; lia. }
  pose proof (wipe_no_panic env (offset fl) (eraseRegions hdr p) w2 Hall) as N.
  destruct (wipe env (offset fl) (eraseRegions hdr p) w2) as [[t |] w3];
    cbn [fst] in *.
  - destruct N as [N | N]; [discriminate | right; congruence].
  - left. reflexivity.
Qed.

(** X15 (how a run ends).  Whatever the flags, the file and the
    environment are, a run ends with status 0, 1 or 2: the lengths that
    [main] hands to [make] are never negative, so that it does not
    panic there. *)
Theorem main_exit_status (env : Env) (fl : Flags) (image : option (list byte)) :
  fst (main env fl image) = Exit 0
  \/ fst (main env fl image) = Exit 1
  \/ fst (main env fl image) = Exit 2.
Proof.
  destruct (Nat.eqb_spec (NArg fl) 1) as [HN | HN].
  - destruct (Z.ltb_spec (offset fl) 0) as [Hneg | Hoff].
    + unfold main. rewrite HN. cbn [Nat.eqb negb].
      destruct (Z.ltb_spec (offset fl) 0); [| lia]. right. left. reflexivity.
    + destruct image as [bytes |].
      * rewrite (main_header env fl bytes HN Hoff).
        destruct (binary_Read _ size_VolumeHeader dec_VolumeHeader)
          as [f [e | hdr]] eqn:E; [right; left; reflexivity |].
        apply binary_Read_value in E. destruct E as [bs ->].
        pose proof (dec_VolumeHeader_sector_range bs) as [Hs _].
        destruct (after_header_exit env fl _ (mkWorld f [] 0 0) Hs) as [T | T];
          rewrite T; tauto.
      * unfold main. rewrite HN. cbn [Nat.eqb negb].
        destruct (Z.ltb_spec (offset fl) 0); [lia |]. right. left. reflexivity.
  - unfold main. destruct (Nat.eqb_spec (NArg fl) 1); [contradiction |].
    right. right. reflexivity.
Qed.

(* ================================================================== *)
(** * The reports on the candidates *)

Lemma reports_app (l1 l2 : list Event) : reports (l1 ++ l2) = reports l1 ++ reports l2.
Proof. apply flat_map_app. Qed.

Lemma reports_emit (e : Event) (w : World) :
  reports (w_log (emit e w)) = reports (w_log w) ++ reports [e].
Proof. unfold emit. cbn [w_log]. apply reports_app. Qed.

Lemma probe_block_reports (env : Env) (fl : Flags) (hdr : VolumeHeader) (p : Probe)
    (w : World) (i : nat) :
  reports (w_log (snd (probe_block env fl hdr (p, w) i))) = reports (w_log w) ++ [i].
Proof.
  unfold probe_block.
  destruct (res_err (InfoStruct_Read (info p) _)) as [e |]; cbn [snd].
  - rewrite reports_emit. reflexivity.
  - destruct (verbose fl); rewrite !reports_emit; cbn [reports flat_map app];
      rewrite <- app_assoc; reflexivity.
Qed.

Lemma probe_fold_reports (env : Env) (fl : Flags) (hdr : VolumeHeader)
    (candidates : list nat) (p : Probe) (w : World) :
  reports (w_log (snd (fold_left (probe_block env fl hdr) candidates (p, w))))
  = reports (w_log w) ++ candidates.
Proof.
  revert p w. induction candidates as [| i rest IH]; intros p w.
  - cbn. rewrite app_nil_r. reflexivity.
  - cbn [fold_left].
    pose proof (probe_block_reports env fl hdr p w i) as H.
    destruct (probe_block env fl hdr (p, w) i) as [p' w']. cbn [snd] in H.
    rewrite IH, H, <- app_assoc. reflexivity.
Qed.

Lemma wipe_reports (env : Env) (base : Z) (regions : list RegionDesc) (w : World) :
  reports (w_log (snd (wipe env base regions w))) = reports (w_log w).
Proof.
  revert w. induction regions as [| r rest IH]; intros w; [reflexivity |].
  cbn [wipe]. destruct (Size r <? 0); [reflexivity |].
  unfold rand_Read.
  destruct (rand_source env (w_rand w)) as [g |].
  - unfold file_Write.
    destruct (write_fault env _) as [n |]; rewrite IH;
      rewrite ?reports_emit; unfold with_file; cbn [w_log];
      rewrite ?reports_emit; cbn [w_log reports flat_map app];
      rewrite ?app_nil_r; reflexivity.
  - unfold fatal. cbn [snd]. rewrite !reports_emit. cbn [w_log reports flat_map app].
    rewrite !app_nil_r. reflexivity.
Qed.

(** X16 (every candidate is reported).  On a volume whose header is
    accepted, the run reports on each of the three candidates exactly
    once and in order, as parsed or as not parsed: a candidate that
    fails does not end the loop, and the wipe adds no report. *)
Theorem main_reports (env : Env) (fl : Flags) (bytes : list byte)
    (hdr : VolumeHeader) :
  NArg fl = 1%nat -> 0 <= offset fl ->
  volume_header_at (mkReader bytes (offset fl)) = Some hdr ->
  validate_header hdr = None ->
  reports (w_log (snd (main env fl (Some bytes)))) = [0; 1; 2]%nat.
Proof.
  intros HN Hoff Hh Hv.
  rewrite (main_after_header env fl bytes hdr HN Hoff Hh).
  cbv zeta. rewrite Hv.
  set (w0 := mkWorld (advance (mkReader bytes (offset fl)) 216) [] 0 0).
  fold (before_probe fl hdr w0).
  assert (R0 : reports (w_log (before_probe fl hdr w0)) = []).
  { unfold before_probe, print_offsets. cbn [seq fold_left].
    destruct (verbose fl); rewrite !reports_emit; reflexivity. }
  pose proof (probe_fold_reports env fl hdr (seq 0 3) zero_Probe
                                 (before_probe fl hdr w0)) as P.
  rewrite R0 in P. unfold probe_blocks.
  destruct (fold_left (probe_block env fl hdr) (seq 0 3)
                      (zero_Probe, before_probe fl hdr w0)) as [p w2].
  cbn [snd] in P.
  destruct (validInfoSize p =? 0).
  - unfold fatal. cbn [snd]. rewrite reports_emit, P. reflexivity.
  - destruct (doWipe fl); [| exact P].
    pose proof (wipe_reports env (offset fl) (eraseRegions hdr p) w2) as W.
    destruct (wipe env (offset fl) (eraseRegions hdr p) w2) as [[t |] w3];
      cbn [snd] in *; rewrite W; exact P.
Qed.

(* ================================================================== *)
(** * A wipe with random bytes at hand *)

Lemma announced_app (l1 l2 : list Event) :
  announced (l1 ++ l2) = announced l1 ++ announced l2.
Proof. apply flat_map_app. Qed.

Lemma extents_app (l1 l2 : list Event) :
  extents (l1 ++ l2) = extents l1 ++ extents l2.
Proof. apply flat_map_app. Qed.

(** While [rand.Read] does not fail the executor announces every region
    and writes as many bytes as the region is long, or tries to. *)
Lemma wipe_all (env : Env) (base : Z) (regions : list RegionDesc) (w : World) :
  Forall (fun r => 0 <= Size r) regions ->
  (forall k, rand_source env k <> None) ->
  fst (wipe env base regions w) = None
  /\ announced (w_log (snd (wipe env base regions w)))
     = announced (w_log w) ++ regions
  /\ map snd (extents (w_log (snd (wipe env base regions w))))
     = map snd (extents (w_log w)) ++ map Size regions.
Proof.
  intros Hall Hrand. revert w.
  induction Hall as [| r rest Hs Hrest IH]; intros w.
  - cbn [wipe fst snd map]. rewrite !app_nil_r. repeat split.
  - destruct (rand_source env (w_rand w)) as [g |] eqn:Hr;
      [| contradiction (Hrand (w_rand w))].
    destruct (wipe_region env base r rest w g Hs Hr) as (w' & Ew & _ & _ & El).
    rewrite Ew. destruct (IH w') as (Hend & Ha & He).
    split; [exact Hend |].
    rewrite Ha, He, El.
    rewrite !announced_app, !extents_app, !map_app.
    replace (announced match write_fault env (w_write w) with
                       | Some _ => [Stdout MsgUnableToWrite]
                       | None => []
                       end) with (@nil RegionDesc)
      by (destruct (write_fault env (w_write w)); reflexivity).
    replace (extents match write_fault env (w_write w) with
                     | Some _ => [Stdout MsgUnableToWrite]
                     | None => []
                     end) with (@nil (Z * Z))
      by (destruct (write_fault env (w_write w)); reflexivity).
    cbn [announced extents flat_map app map snd].
    rewrite length_map, length_seq, Z2Nat.id by exact Hs.
    rewrite <- !app_assoc.
    destruct r; split; reflexivity.
Qed.

(** X17 (a wipe runs to its end).  When a candidate has validated, a
    wipe is requested and [rand.Read] does not fail, the run announces
    the four regions of the plan, issues four writes of the sector size
    and three times the size that [Read] returned for the last valid
    candidate, and ends with status 0, whether or not the writes
    succeed: a failed write is reported and does not change the
    status. *)
Theorem main_wipe_completes (env : Env) (fl : Flags) (bytes : list byte)
    (hdr : VolumeHeader) (res : ReadResult) :
  NArg fl = 1%nat -> 0 <= offset fl ->
  volume_header_at (mkReader bytes (offset fl)) = Some hdr ->
  validate_header hdr = None ->
  doWipe fl = true ->
  last_valid (replay env fl hdr zero_InfoStruct
                     (advance (mkReader bytes (offset fl)) 216) (seq 0 3))
  = Some res ->
  (forall k, rand_source env k <> None) ->
  fst (main env fl (Some bytes)) = Exit 0
  /\ announced (w_log (snd (main env fl (Some bytes))))
     = eraseRegions hdr (recorded res)
  /\ map snd (extents (w_log (snd (main env fl (Some bytes)))))
     = [vh_SectorSize hdr; res_size res; res_size res; res_size res].
Proof.
  intros HN Hoff Hh Hv Hw Hl Hrand.
  rewrite (main_after_header env fl bytes hdr HN Hoff Hh).
  cbv zeta. rewrite Hv, Hw.
  set (w0 := mkWorld (advance (mkReader bytes (offset fl)) 216) [] 0 0).
  fold (before_probe fl hdr w0).
  destruct (before_probe_reads_only fl hdr w0) as [R1 F1].
  pose proof (probe_fold_reads_only env fl hdr (seq 0 3) zero_Probe
                                    (before_probe fl hdr w0)) as R2.
  pose proof (probe_last_valid env fl hdr (seq 0 3) zero_Probe
                               (before_probe fl hdr w0)) as P.
  cbn [info zero_Probe] in P. rewrite F1 in P. cbn [w0 w_file] in P.
  rewrite Hl in P. unfold probe_blocks.
  destruct (fold_left (probe_block env fl hdr) (seq 0 3)
                      (zero_Probe, before_probe fl hdr w0)) as [p w2].
  cbn [fst snd] in P, R2. subst p.
  destruct (last_valid_ok _ _ Hl) as [Hin Hok].
  destruct (replay_results _ _ _ _ _ _ _ Hin) as (s' & r' & ->).
  pose proof (Read_success_size s' r' Hok) as Hsz.
  cbn [validInfoSize recorded].
  destruct (Z.eqb_spec (res_size (InfoStruct_Read s' r')) 0) as [Z0 | _]; [lia |].
  pose proof (volume_header_at_wf _ _ Hh) as [_ Rs].
  assert (Hall : Forall (fun r => 0 <= Size r)
                        (eraseRegions hdr (recorded (InfoStruct_Read s' r')))).
  { unfold eraseRegions. cbn [validInfoSize recorded].
    repeat constructor; cbn [Size]; lia. }
  destruct (wipe_all env (offset fl) _ w2 Hall Hrand) as (Hend & Ha & He).
  destruct (reads_only_fresh _ _ (reads_only_trans _ _ _ R1 R2))
    as (_ & _ & _ & Hws & Han & _).
  assert (Hex : extents (w_log w2) = []).
  { destruct (reads_only_trans _ _ _ R1 R2) as (_ & _ & _ & new & L & Q).
    cbn [w0 w_log app] in L. rewrite L. clear L.
    induction new as [| e new IHn]; [reflexivity |].
    cbn [forallb] in Q. apply andb_true_iff in Q. destruct Q as [Qe Qn].
    unfold extents in *. cbn [flat_map]. rewrite (IHn Qn).
    destruct e as [[] | | | |]; try discriminate Qe; reflexivity. }
  rewrite Han in Ha. rewrite Hex in He.
  destruct (wipe env (offset fl)
                 (eraseRegions hdr (recorded (InfoStruct_Read s' r'))) w2)
    as [[t |] w3]; cbn [fst snd] in *; [discriminate |].
  split; [reflexivity |]. split; [exact Ha | exact He].
Qed.

(* ================================================================== *)
(** * What a wipe leaves alone *)

Lemma nth_pad (data : list byte) (k n : nat) :
  nth n (data ++ repeat x00 k) x00 = nth n data x00.
Proof.
  destruct (Nat.lt_ge_cases n (length data)) as [L | G].
  - apply app_nth1. exact L.
  - rewrite app_nth2 by exact G. rewrite nth_repeat.
    symmetry. apply nth_overflow. exact G.
Qed.

(** A write changes no byte outside the range it covers. *)
Lemma store_outside (f : Reader) (buf : list byte) (i : Z) :
  0 <= rpos f -> 0 <= i ->
  i < rpos f \/ rpos f + Z.of_nat (length buf) <= i ->
  byte_of (rdata (store f buf)) i = byte_of (rdata f) i.
Proof.
  intros Hp Hi Hout. unfold store, byte_of.
  destruct buf as [| b buf]; [reflexivity |].
  set (bs := b :: buf) in *. cbn [rdata].
  set (p := Z.to_nat (rpos f)).
  set (d := rdata f ++ repeat x00 (p - length (rdata f))).
  assert (Ld : (p <= length d)%nat).
  { unfold d. rewrite length_app, repeat_length. lia. }
  assert (Lf : length (firstn p d) = p) by (apply firstn_length_le; exact Ld).
  destruct Hout as [Lo | Hi'].
  - rewrite app_nth1 by lia.
    rewrite nth_firstn.
    destruct (Nat.ltb_spec (Z.to_nat i) p); [| lia].
    apply nth_pad.
  - rewrite app_nth2 by lia. rewrite Lf.
    rewrite app_nth2 by lia.
    rewrite nth_skipn.
    replace (p + length bs + (Z.to_nat i - p - length bs))%nat
      with (Z.to_nat i) by lia.
    apply nth_pad.
Qed.

(** X18 (the rest of the volume).  Let the regions have lengths that
    are not negative, and let the file be such that it can be brought
    to [base] plus the offset of each: the sum is not negative and lies
    within the file or within what the file system or device lets it
    seek to.  Then the executor leaves every byte that lies in none of
    the regions as it was, whether or not writes or [rand.Read] fail. *)
Theorem wipe_outside_untouched (env : Env) (base : Z)
    (regions : list RegionDesc) (w : World) (i : Z) :
  Forall (fun r => 0 <= Size r /\ reachable env (w_file w) (base + Offset r))
         regions ->
  0 <= i ->
  (forall r, In r regions -> ~ inside base r i) ->
  byte_of (rdata (w_file (snd (wipe env base regions w)))) i
  = byte_of (rdata (w_file w)) i.
Proof.
  intros Hall Hi. revert w Hall.
  induction regions as [| r rest IH]; intros w Hall Hout.
  - reflexivity.
  - inversion Hall as [| r' rest' [Hs Hpos] Hrest]; subst.
    destruct (rand_source env (w_rand w)) as [g |] eqn:Hr.
    + destruct (wipe_region_full env base r rest w g Hs Hr)
        as (w' & written & Ew & _ & _ & _ & Ef & Lw).
      assert (Longer : (length (rdata (w_file w)) <= length (rdata (w_file w')))%nat).
      { rewrite Ef. eapply Nat.le_trans; [| apply store_length].
        rewrite File_Seek_rdata. lia. }
      rewrite Ew, IH.
      * rewrite Ef.
        assert (Hni : ~ inside base r i) by (apply Hout; left; reflexivity).
        unfold inside in Hni.
        pose proof (proj1 Hpos) as Hrange.
        rewrite store_outside.
        -- rewrite File_Seek_rdata. reflexivity.
        -- rewrite (Seek_region _ _ _ _ Hpos). lia.
        -- exact Hi.
        -- rewrite (Seek_region _ _ _ _ Hpos). lia.
      * eapply Forall_impl; [| exact Hrest].
        intros r0 [Hs0 Hr0]. split; [exact Hs0 |].
        apply (reachable_longer env (w_file w) (w_file w') _ Longer Hr0).
      * intros r0 Hin. apply Hout. right. exact Hin.
    + cbn [wipe]. destruct (Z.ltb_spec (Size r) 0); [lia |].
      unfold rand_Read. rewrite Hr. reflexivity.
Qed.

(* ================================================================== *)
(** * The statements above on the sample volumes *)

Lemma Read_short_header_witness :
  InfoStruct_Read Sample.good_info (Sample.cut 5)
  = mkReadResult (-1) (Some (ErrIO ErrUnexpectedEOF)) Sample.good_info
                 (mkReader (firstn 5 Sample.good_block) 5).
Proof.
  apply (Read_short_header Sample.good_info (Sample.cut 5)); vm_compute;
    first [reflexivity | discriminate].
Defined.

Lemma Read_bad_signature_witness :
  InfoStruct_Read Sample.good_info (mkReader (Sample.zeros 72) 0)
  = mkReadResult (-1) (Some (ErrInvalidSignature (Sample.zeros 8)))
                 Sample.good_info (mkReader (Sample.zeros 72) 12).
Proof.
  apply (Read_bad_signature Sample.good_info (mkReader (Sample.zeros 72) 0));
    vm_compute; first [reflexivity | discriminate].
Defined.

Lemma Read_short_payload_witness :
  InfoStruct_Read Sample.good_info (Sample.cut 40)
  = mkReadResult 64 (Some (ErrIO ErrUnexpectedEOF)) Sample.good_info
                 (mkReader (firstn 40 Sample.good_block) 40).
Proof.
  apply (Read_short_payload Sample.good_info (Sample.cut 40)
                            (mkInfoHeader magic 64 1) 64);
    vm_compute; first [reflexivity | discriminate].
Defined.

Lemma Read_short_footer_witness :
  InfoStruct_Read Sample.good_info (Sample.cut 66)
  = mkReadResult 64 (Some (ErrValidationHeader ErrUnexpectedEOF))
                 Sample.good_info (mkReader (firstn 66 Sample.good_block) 66).
Proof.
  apply (Read_short_footer Sample.good_info (Sample.cut 66)
                           (mkInfoHeader magic 64 1) 64);
    vm_compute; first [reflexivity | discriminate].
Defined.

Lemma Read_succeeds_iff_witness :
  res_err (InfoStruct_Read zero_InfoStruct (mkReader Sample.good_block 0)) = None.
Proof.
  apply (Read_succeeds_iff zero_InfoStruct (mkReader Sample.good_block 0)).
  - split; vm_compute; first [reflexivity | discriminate].
  - exists (mkInfoHeader magic 64 1), 64, (mkValidation 8 1 3595706043).
    repeat split; vm_compute; first [reflexivity | discriminate].
Defined.

Lemma Read_validated_block_witness :
  ih_Signature (is_Header (res_info (InfoStruct_Read zero_InfoStruct
                                       (mkReader Sample.good_block 0))))
  = magic.
Proof.
  apply (Read_validated_block zero_InfoStruct (mkReader Sample.good_block 0)).
  - split; vm_compute; first [reflexivity | discriminate].
  - by_eval.
Defined.

Lemma Guid_String_faithful_witness :
  String.length (Guid_String known_guid) = 36%nat
  /\ (Guid_String known_guid = Guid_String Sample.other_guid ->
      known_guid = Sample.other_guid).
Proof.
  apply (Guid_String_faithful known_guid Sample.other_guid);
    unfold wf_Guid; cbn; repeat split; lia.
Defined.

Lemma INFO_GUID_on_disk_witness :
  Guid_String (fst (dec_Guid INFO_GUID_bytes)) = INFO_GUID
  <-> INFO_GUID_bytes = INFO_GUID_bytes.
Proof.
  apply (INFO_GUID_on_disk INFO_GUID_bytes). reflexivity.
Defined.

Lemma volume_header_layout_witness :
  Sample.header 512 Sample.offsets
  = mkVolumeHeader
      (bytes_at (mkReader Sample.image 0) 0 3)
      (bytes_at (mkReader Sample.image 0) 3 8)
      (le_uint (bytes_at (mkReader Sample.image 0) 11 2))
      (le_uint (bytes_at (mkReader Sample.image 0) 13 1))
      (le_uint (bytes_at (mkReader Sample.image 0) 14 2))
      (le_uint (bytes_at (mkReader Sample.image 0) 40 8))
      (le_uint (bytes_at (mkReader Sample.image 0) 48 8))
      (le_uint (bytes_at (mkReader Sample.image 0) 56 8))
      (mkGuid (le_uint (bytes_at (mkReader Sample.image 0) 160 4))
              (le_uint (bytes_at (mkReader Sample.image 0) 164 2))
              (le_uint (bytes_at (mkReader Sample.image 0) 166 2))
              (bytes_at (mkReader Sample.image 0) 168 2)
              (bytes_at (mkReader Sample.image 0) 170 6))
      [le_uint (bytes_at (mkReader Sample.image 0) 176 8);
       le_uint (bytes_at (mkReader Sample.image 0) 184 8);
       le_uint (bytes_at (mkReader Sample.image 0) 192 8)]
      [le_uint (bytes_at (mkReader Sample.image 0) 200 8);
       le_uint (bytes_at (mkReader Sample.image 0) 208 8)].
Proof.
  apply (volume_header_layout (mkReader Sample.image 0)). by_eval.
Defined.

Lemma main_read_only_witness :
  writes (w_log (snd (main Sample.env (Sample.flags false) (Some Sample.image))))
  = []
  /\ filter is_rand
            (w_log (snd (main Sample.env (Sample.flags false) (Some Sample.image))))
     = []
  /\ w_rand (snd (main Sample.env (Sample.flags false) (Some Sample.image))) = 0%nat
  /\ w_write (snd (main Sample.env (Sample.flags false) (Some Sample.image))) = 0%nat
  /\ (fst (main Sample.env (Sample.flags false) (Some Sample.image)) = Exit 0
      \/ fst (main Sample.env (Sample.flags false) (Some Sample.image)) = Exit 1
      \/ fst (main Sample.env (Sample.flags false) (Some Sample.image)) = Exit 2)
  /\ (NArg (Sample.flags false) = 1%nat /\ 0 <= offset (Sample.flags false) ->
      rdata (w_file (snd (main Sample.env (Sample.flags false) (Some Sample.image))))
      = Sample.image).
Proof.
  apply (main_read_only Sample.env (Sample.flags false) Sample.image).
  reflexivity.
Defined.

Lemma main_short_header_witness :
  main Sample.env (Sample.flags true) (Some (firstn 100 Sample.image))
  = (Exit 1,
     mkWorld (mkReader (firstn 100 Sample.image) 100)
             [Stderr ("can't read header: %s" ++ newline)
                     (FatalCantReadHeader ErrUnexpectedEOF)] 0 0).
Proof.
  apply (main_short_header Sample.env (Sample.flags true) (firstn 100 Sample.image)).
  - reflexivity.
  - split; [vm_compute; split; [discriminate | reflexivity] |].
    left. vm_compute. discriminate.
  - by_eval.
Defined.

Lemma main_reports_witness :
  reports (w_log (snd (main Sample.env (Sample.flags true) (Some Sample.image_one))))
  = [0; 1; 2]%nat.
Proof.
  apply (main_reports Sample.env (Sample.flags true) Sample.image_one
                      (Sample.header 512 Sample.offsets)).
  - reflexivity.
  - vm_compute. discriminate.
  - by_eval.
  - by_eval.
Defined.

Lemma main_wipe_completes_witness :
  fst (main Sample.env (Sample.flags true) (Some Sample.image_one)) = Exit 0
  /\ announced (w_log (snd (main Sample.env (Sample.flags true)
                                 (Some Sample.image_one))))
     = [ mkRegion "volume header" 0 512;
         mkRegion "metadata block 0" 600 72;
         mkRegion "metadata block 1" 1100 72;
         mkRegion "metadata block 2" 1600 72 ]
  /\ map snd (extents (w_log (snd (main Sample.env (Sample.flags true)
                                        (Some Sample.image_one)))))
     = [512; 72; 72; 72].
Proof.
  pose proof (main_wipe_completes Sample.env (Sample.flags true) Sample.image_one
                (Sample.header 512 Sample.offsets)
                (InfoStruct_Read zero_InfoStruct (mkReader Sample.image_one 1024)))
    as H.
  destruct H as (T & A & E).
  - reflexivity.
  - vm_compute. discriminate.
  - by_eval.
  - by_eval.
  - reflexivity.
  - by_eval.
  - intros k. discriminate.
  - split; [exact T |]. split.
    + rewrite A. by_eval.
    + rewrite E. by_eval.
Defined.

Lemma wipe_outside_untouched_witness :
  byte_of (rdata (w_file (snd (wipe Sample.faulty_env 0 Sample.regions
                                    Sample.world)))) 600
  = byte_of (rdata (w_file Sample.world)) 600.
Proof.
  apply (wipe_outside_untouched Sample.faulty_env 0 Sample.regions Sample.world 600).
  - repeat constructor; try (vm_compute; first [reflexivity | discriminate]);
      left; vm_compute; discriminate.
  - lia.
  - intros r [<- | [<- | [<- | [<- | []]]]]; unfold inside; cbn; lia.
Defined.

(* ================================================================== *)
(** * The status of a run that only looks *)

(** X19 (status without a wipe).  On a volume whose header is accepted
    and without [-wipe], the run ends with status 0 when at least one
    candidate validates and with status 1 when none does. *)
Theorem main_status_no_wipe (env : Env) (fl : Flags) (bytes : list byte)
    (hdr : VolumeHeader) :
  NArg fl = 1%nat -> 0 <= offset fl ->
  volume_header_at (mkReader bytes (offset fl)) = Some hdr ->
  validate_header hdr = None ->
  doWipe fl = false ->
  fst (main env fl (Some bytes))
  = match last_valid (replay env fl hdr zero_InfoStruct
                             (advance (mkReader bytes (offset fl)) 216) (seq 0 3)) with
    | Some _ => Exit 0
    | None => Exit 1
    end.
Proof.
  intros HN Hoff Hh Hv Hw.
  rewrite (main_after_header env fl bytes hdr HN Hoff Hh).
  cbv zeta. rewrite Hv, Hw.
  set (w0 := mkWorld (advance (mkReader bytes (offset fl)) 216) [] 0 0).
  fold (before_probe fl hdr w0).
  destruct (before_probe_reads_only fl hdr w0) as [_ F1].
  pose proof (probe_last_valid env fl hdr (seq 0 3) zero_Probe
                               (before_probe fl hdr w0)) as P.
  cbn [info zero_Probe] in P. rewrite F1 in P. cbn [w0 w_file] in P.
  unfold probe_blocks.
  destruct (fold_left (probe_block env fl hdr) (seq 0 3)
                      (zero_Probe, before_probe fl hdr w0)) as [p w2].
  cbn [fst] in P. subst p.
  destruct (last_valid _) as [res |] eqn:L.
  - destruct (last_valid_ok _ _ L) as [Hin Hok].
    destruct (replay_results _ _ _ _ _ _ _ Hin) as (s' & r' & ->).
    pose proof (Read_success_size s' r' Hok) as Hsz.
    cbn [validInfoSize recorded].
    destruct (Z.eqb_spec (res_size (InfoStruct_Read s' r')) 0); [lia |].
    reflexivity.
  - reflexivity.
Qed.

Lemma main_status_no_wipe_witness :
  fst (main Sample.env (Sample.flags false) (Some Sample.image_one)) = Exit 0.
Proof.
  rewrite (main_status_no_wipe Sample.env (Sample.flags false) Sample.image_one
                               (Sample.header 512 Sample.offsets)).
  - by_eval.
  - reflexivity.
  - vm_compute. discriminate.
  - by_eval.
  - by_eval.
  - reflexivity.
Defined.

(* ================================================================== *)
(** * The size that is printed *)


